(** * jsparser: recursive-descent parser combinators and their tokenizers

    A shallow embedding of [src/parsers.js], [src/jsparser.js] and
    [src/stringlexer.js], and the properties of the backtracking / cut
    protocol, the node combinator, the repetition combinator and the
    tokenizers.

    The JavaScript code mutates one shared parse-state object.  Here the
    state is passed explicitly: an operation is a function from the state
    before the call to an [outcome], which is either a normal return (a
    value and the state after the call), an exception (the thrown value and
    the state at the time of the throw), or [OutOfFuel] for a loop that was
    cut off by the fuel of the model.  Tokens and nodes are JavaScript
    objects: they live in a store ([heap]) and the token array and the AST
    stack hold references to them, so that sharing is visible. *)

From Stdlib Require Import ZArith Lia Ascii.
From stdpp Require Import base list strings.

(** ** JavaScript values and objects *)

Definition loc := nat.

(** The values that occur on the AST stack: [VUndefined] is [undefined] and
    also what reading an empty array slot gives. *)
Inductive value : Type :=
| VUndefined
| VBool (b : bool)
| VNum (n : Z)
| VStr (s : string)
| VRef (l : loc).

(** JavaScript truthiness, as tested by [if (x)], [!x], [&&] and [||]. *)
Definition truthy (v : value) : bool :=
  match v with
  | VUndefined => false
  | VBool b => b
  | VNum n => negb (n =? 0)%Z
  | VStr s => negb (String.eqb s "")
  | VRef _ => true
  end.

(** A token [{name, text, cursor}].  The name is [None] when the tokenizer
    stored [undefined] there. *)
Record token : Type := Token {
  name : option string;
  text : string;
  tcursor : nat
}.

(** The objects of the store: tokens and nodes [{name, children}]. *)
Inductive obj : Type :=
| OToken (t : token)
| ONode (nname : string) (children : list value).

#[global] Instance obj_inhabited : Inhabited obj :=
  populate (OToken (Token None "" 0)).

Definition obj_name (o : obj) : option string :=
  match o with
  | OToken t => name t
  | ONode n _ => Some n
  end.

(** ** The parse state *)

(** The cut marker: [{label, cursor}] in parsers.js, [{label, at}] in
    jsparser.js. *)
Record cutmark : Type := CutMark {
  label : value;
  at_ : nat
}.

(** [{tokens, cursor, ast, cut}]; jsparser.js calls the cursor [next].
    [heap] is the object store the references point into. *)
Record state : Type := State {
  tokens : list loc;
  cursor : nat;
  ast : list value;
  cut_ : option cutmark;
  heap : list obj
}.

Definition set_cursor (n : nat) (s : state) : state :=
  State (tokens s) n (ast s) (cut_ s) (heap s).
Definition set_ast (a : list value) (s : state) : state :=
  State (tokens s) (cursor s) a (cut_ s) (heap s).
Definition set_cut (c : option cutmark) (s : state) : state :=
  State (tokens s) (cursor s) (ast s) c (heap s).
Definition set_heap (h : list obj) (s : state) : state :=
  State (tokens s) (cursor s) (ast s) (cut_ s) h.

(** [arr.push(v)] *)
Definition push (v : value) (s : state) : state := set_ast (ast s ++ [v]) s.

(** [arr.length = n]: truncates a longer array, and extends a shorter one
    with empty slots. *)
Definition set_length (n : nat) (a : list value) : list value :=
  take n a ++ replicate (n - length a) VUndefined.

(** [arr.slice(n)] *)
Definition slice_from (n : nat) (a : list value) : list value := drop n a.

(** [state?.cut?.cursor >= n]: [undefined >= n] is false, so the test fails
    when there is no cut marker. *)
Definition cut_at_or_after (n : nat) (s : state) : bool :=
  match cut_ s with
  | Some c => bool_decide (n <= at_ c)
  | None => false
  end.

(** A new object is stored at the first unused location. *)
Definition alloc (o : obj) (s : state) : loc * state :=
  (length (heap s), set_heap (heap s ++ [o]) s).

(** ** Outcomes *)

(** What a [throw] carries. *)
Inductive exn : Type :=
| ThrowState
    (* [throw state]: the thrown value is the live parse state, which the
       outcome carries *)
| ThrowString (msg : string)
| ThrowToken (t : token)
| ZeroLengthToken (tname : option string) (index : nat)
    (* the string
       [`token ${name} succeeded without consuming any input at character ${m.index}`] *)
| ReferenceError (ident : string)
| TypeError (msg : string)
| SyntaxError (source : string).

Inductive outcome (A : Type) : Type :=
| Ret (a : A) (s : state)
| Throw (e : exn) (s : state)
| OutOfFuel.
Arguments Ret {A} a s.
Arguments Throw {A} e s.
Arguments OutOfFuel {A}.

Definition M (A : Type) : Type := state -> outcome A.

Definition ret {A} (a : A) : M A := fun s => Ret a s.

Definition bind {A B} (m : M A) (k : A -> M B) : M B :=
  fun s =>
    match m s with
    | Ret a s' => k a s'
    | Throw e s' => Throw e s'
    | OutOfFuel => OutOfFuel
    end.

Notation "'do' x <- m ; k" := (bind m (fun x => k))
  (at level 10, x name, m at level 100, k at level 200).

(** A parser function returns a truthy value (the state, or [true]) when
    it succeeds and [false] when it fails. *)
Definition parser : Type := M bool.

(** [p(state) || q(state)] and [p(state) && q(state)], the two ways rules
    are composed in a grammar. *)
Definition alt (p q : parser) : parser :=
  do r <- p; if r then ret true else q.
Definition seq (p q : parser) : parser :=
  do r <- p; if r then q else ret false.

(** An action receives the node and returns the value that replaces it;
    a falsy result vetoes the match.  It is an arbitrary function, so it
    may change the state and may throw. *)
Definition action_fn : Type := value -> M value.

(** The checkpoint [{cursor, astlen}] made by [save]. *)
Record checkpoint : Type := Checkpoint {
  sv_cursor : nat;
  sv_astlen : nat
}.

(** The state after an ordinary restore: the cursor and the length of the
    stack are those of the checkpoint. *)
Definition rewind (saved : checkpoint) (s : state) : state :=
  State (tokens s) (sv_cursor saved) (set_length (sv_astlen saved) (ast s))
    (cut_ s) (heap s).

(** The function object returned by [node]: the closure over [name],
    [parser] and [count], and its mutable [actions] property. *)
Record nodeparser : Type := NodeParser {
  np_name : string;
  np_parser : parser;
  np_count : Z;
  actions : list action_fn
}.

(** ** parsers.js: the state is an explicit parameter *)

Module Parsers.

(** The token array holds references to objects, so
    [state.tokens[state.cursor]] is truthy exactly when the cursor is inside
    the array.  [state.ast.push(state.tokens[state.cursor++])] pushes the
    reference it has read. *)
Definition keep : parser := fun s =>
  match tokens s !! cursor s with
  | Some l => Ret true (set_cursor (S (cursor s)) (push (VRef l) s))
  | None => Ret false s
  end.

Definition skip : parser := fun s =>
  match tokens s !! cursor s with
  | Some _ => Ret true (set_cursor (S (cursor s)) s)
  | None => Ret false s
  end.

(** [state.tokens[state.cursor]?.name == name] *)
Definition is_ (nm : string) : parser := fun s =>
  match tokens s !! cursor s with
  | Some l => Ret (bool_decide (obj_name (heap s !!! l) = Some nm)) s
  | None => Ret false s
  end.

Definition match_ (nm : string) : parser := seq (is_ nm) keep.

Definition not_ (nm : string) : parser :=
  do r <- is_ nm; if r then ret false else keep.

Definition eat (nm : string) : parser := seq (is_ nm) skip.

Definition cut (lbl : value) : parser := fun s =>
  Ret true (set_cut (Some (CutMark lbl (cursor s))) s).

Definition END : parser := fun s =>
  Ret (bool_decide (length (tokens s) <= cursor s)) s.

Definition save (s : state) : checkpoint :=
  Checkpoint (cursor s) (length (ast s)).

(** [if (state?.cut?.cursor >= saved_state.cursor) throw state] *)
Definition restore (saved : checkpoint) : parser := fun s =>
  if cut_at_or_after (sv_cursor saved) s then Throw ThrowState s
  else Ret false
         (set_ast (set_length (sv_astlen saved) (ast s))
            (set_cursor (sv_cursor saved) s)).

Definition bt (p : parser) : parser := fun s =>
  let saved_state := save s in
  match p s with
  | Ret true s' => Ret true s'
  | Ret false s' => restore saved_state s'
  | Throw e s' => Throw e s'
  | OutOfFuel => OutOfFuel
  end.

(** [for (let action of nodefn.actions) if (!(node = action(node))) ...]:
    [inl] is the node after the whole chain, [inr tt] a veto. *)
Fixpoint run_actions (acts : list action_fn) (node : value)
  : M (value + unit) :=
  match acts with
  | [] => ret (inl node)
  | act :: rest =>
      do node' <- act node;
      if truthy node' then run_actions rest node' else ret (inr tt)
  end.

Definition nodefn (np : nodeparser) : parser := fun s =>
  let saved_state := save s in
  match np_parser np s with
  | Ret true s1 =>
      if bool_decide
           (np_count np
            < Z.of_nat (length (ast s1)) - Z.of_nat (sv_astlen saved_state))%Z
      then
        let children := slice_from (sv_astlen saved_state) (ast s1) in
        let s2 := set_ast (set_length (sv_astlen saved_state) (ast s1)) s1 in
        let '(l, s3) := alloc (ONode (np_name np) children) s2 in
        match run_actions (actions np) (VRef l) s3 with
        | Ret (inl node) s4 => Ret true (push node s4)
        | Ret (inr _) s4 => restore saved_state s4
        | Throw e s4 => Throw e s4
        | OutOfFuel => OutOfFuel
        end
      else Ret true s1
  | Ret false s1 => restore saved_state s1
  | Throw e s1 => Throw e s1
  | OutOfFuel => OutOfFuel
  end.

(** [node(name, parser, count = 0)]: a node parser with no actions yet. *)
Definition node (nm : string) (p : parser) (count : Z) : nodeparser :=
  NodeParser nm p count [].

Definition cnode (nm : string) (p : parser) : nodeparser := node nm p 1.

(** [nodeparser.actions.push(act)] *)
Definition action (np : nodeparser) (act : action_fn) : nodeparser :=
  NodeParser (np_name np) (np_parser np) (np_count np) (actions np ++ [act]).

(** [while (parser(s)) {}; return s].  One unit of fuel pays for one
    evaluation of the loop condition. *)
Fixpoint many (fuel : nat) (p : parser) (s : state) : outcome bool :=
  match fuel with
  | O => OutOfFuel
  | S fuel' =>
      match p s with
      | Ret true s' => many fuel' p s'
      | Ret false s' => Ret true s'
      | Throw e s' => Throw e s'
      | OutOfFuel => OutOfFuel
      end
  end.

End Parsers.

(** ** jsparser.js: [create_parser], the state is closed over *)

Module JsParser.

(** [init_state(tokens)]: [{ tokens, next: 0, ast: [] }] *)
Definition init_state (toks : list loc) (h : list obj) : state :=
  State toks 0 [] None h.

(** [state.ast.push({ ...state.tokens[state.next++] })]: the spread
    makes a new object with the same properties. *)
Definition keep : parser := fun s =>
  match tokens s !! cursor s with
  | Some l =>
      let '(l', s1) := alloc (heap s !!! l) s in
      Ret true (set_cursor (S (cursor s)) (push (VRef l') s1))
  | None => Ret false s
  end.

Definition skip : parser := fun s =>
  match tokens s !! cursor s with
  | Some _ => Ret true (set_cursor (S (cursor s)) s)
  | None => Ret false s
  end.

Definition is_ (nm : string) : parser := fun s =>
  match tokens s !! cursor s with
  | Some l => Ret (bool_decide (obj_name (heap s !!! l) = Some nm)) s
  | None => Ret false s
  end.

Definition match_ (nm : string) : parser := seq (is_ nm) keep.

Definition not_ (nm : string) : parser :=
  do r <- is_ nm; if r then ret false else keep.

Definition eat (nm : string) : parser := seq (is_ nm) skip.

Definition cut (lbl : value) : parser := fun s =>
  Ret true (set_cut (Some (CutMark lbl (cursor s))) s).

Definition END : parser := fun s =>
  Ret (bool_decide (length (tokens s) <= cursor s)) s.

Definition save (s : state) : checkpoint :=
  Checkpoint (cursor s) (length (ast s)).

(** [if (state?.cut?.at >= saved_state.next) throw state] *)
Definition restore (saved : checkpoint) : parser := fun s =>
  if cut_at_or_after (sv_cursor saved) s then Throw ThrowState s
  else Ret false
         (set_ast (set_length (sv_astlen saved) (ast s))
            (set_cursor (sv_cursor saved) s)).

(** [parser() || restore(saved_state)] *)
Definition bt (p : parser) : parser := fun s =>
  let saved_state := save s in
  alt p (restore saved_state) s.

Fixpoint run_actions (acts : list action_fn) (node : value)
  : M (value + unit) :=
  match acts with
  | [] => ret (inl node)
  | act :: rest =>
      do node' <- act node;
      if truthy node' then run_actions rest node' else ret (inr tt)
  end.

Definition nodefn (np : nodeparser) : parser := fun s =>
  let saved_state := save s in
  match np_parser np s with
  | Ret result s1 =>
      if result
         && bool_decide
              (np_count np
               < Z.of_nat (length (ast s1)) - Z.of_nat (sv_astlen saved_state))%Z
      then
        let '(l, s2) :=
          alloc (ONode (np_name np)
                   (slice_from (sv_astlen saved_state) (ast s1))) s1 in
        let s3 := set_ast (set_length (sv_astlen saved_state) (ast s2)) s2 in
        match run_actions (actions np) (VRef l) s3 with
        | Ret (inl node) s4 => alt (ret result) (restore saved_state) (push node s4)
        | Ret (inr _) s4 => restore saved_state s4
        | Throw e s4 => Throw e s4
        | OutOfFuel => OutOfFuel
        end
      else alt (ret result) (restore saved_state) s1
  | Throw e s1 => Throw e s1
  | OutOfFuel => OutOfFuel
  end.

Definition node (nm : string) (p : parser) (count : Z) : nodeparser :=
  NodeParser nm p count [].

Definition cnode (nm : string) (p : parser) : nodeparser := node nm p 1.

Definition action (np : nodeparser) (act : action_fn) : nodeparser :=
  NodeParser (np_name np) (np_parser np) (np_count np) (actions np ++ [act]).

(** [many]: [next] is the cursor before the coming invocation.  The
    message of the [throw] interpolates [${cursor}], an identifier that
    is declared nowhere in jsparser.js, so evaluating the message raises
    a ReferenceError and that is what leaves [many]. *)
Fixpoint many_loop (fuel : nat) (p : parser) (next : nat) (s : state)
  : outcome bool :=
  match fuel with
  | O => OutOfFuel
  | S fuel' =>
      match p s with
      | Ret true s' =>
          if bool_decide (cursor s' = next)
          then Throw (ReferenceError "cursor") s'
          else many_loop fuel' p (cursor s') s'
      | Ret false s' => Ret true s'
      | Throw e s' => Throw e s'
      | OutOfFuel => OutOfFuel
      end
  end.

Definition many (fuel : nat) (p : parser) : parser := fun s =>
  many_loop fuel p (cursor s) s.

(** [set_state(newstate)] and [get_state()] *)
Definition set_state (newstate : state) : M unit := fun _ => Ret tt newstate.
Definition get_state : M state := fun s => Ret s s.

(** [trace(printer, ...args)]: [printer(state, ...args); return true].  The
    printer is the caller's function: it may do anything to the state. *)
Definition trace (printer : M unit) : parser :=
  do _ <- printer; ret true.

End JsParser.

(** ** Tokenizers *)

(** What tokenizing returns: the token array, or the thrown value. *)
Inductive res (A : Type) : Type :=
| Ok (a : A)
| Err (e : exn).
Arguments Ok {A} a.
Arguments Err {A} e.

Definition rbind {A B} (m : res A) (k : A -> res B) : res B :=
  match m with
  | Ok a => k a
  | Err e => Err e
  end.

Notation "'try' x <- m ; k" := (rbind m (fun x => k))
  (at level 10, x name, m at level 100, k at level 200).

(** One element [m] of [str.matchAll(re)]: [m.index], [m[0]] and the
    capture groups [m.slice(1)], where a group that did not take part in
    the match is [undefined]. *)
Record rmatch : Type := RMatch {
  index : nat;
  m0 : string;
  groups : list (option string)
}.

(** [arr.findIndex(f)]: the first index at which [f] holds, or -1. *)
Fixpoint findIndex_from {A} (f : A -> bool) (i : nat) (l : list A) : Z :=
  match l with
  | [] => (-1)%Z
  | x :: l' => if f x then Z.of_nat i else findIndex_from f (S i) l'
  end.
Definition findIndex {A} (f : A -> bool) (l : list A) : Z :=
  findIndex_from f 0 l.

(** [arr[i]] for a number [i]: [undefined] outside the array. *)
Definition array_get {A} (l : list A) (i : Z) : option A :=
  if (i <? 0)%Z then None else l !! Z.to_nat i.

(** [!!x] for a capture group. *)
Definition group_truthy (g : option string) : bool :=
  match g with
  | Some s => negb (String.eqb s "")
  | None => false
  end.

(** [str.slice(from, to)] for [from <= to] and [str.slice(from)]. *)
Definition slice (str : string) (from to : nat) : string :=
  String.substring from (to - from) str.
Definition slice_end (str : string) (from : nat) : string :=
  String.substring from (String.length str - from) str.

Definition unknown_token (txt : string) (at_pos : nat) : token :=
  Token (Some "unknown") txt at_pos.

(** [s.replaceAll(/[...]/g, (v) => '\\' + v)]: a backslash goes before
    every character of the class. *)
Fixpoint escape_with (in_class : Ascii.ascii -> bool) (s : string) : string :=
  match s with
  | EmptyString => EmptyString
  | String c s' =>
      if in_class c then String "\"%char (String c (escape_with in_class s'))
      else String c (escape_with in_class s')
  end.

(** The class [[()*+?-[\]\\^${}|]] of stringlexer.js; [?-[] is the range
    of the characters from [?] to [[]. *)
Definition class_stringlexer (c : Ascii.ascii) : bool :=
  let n := Ascii.nat_of_ascii c in
  bool_decide (n = 40 \/ n = 41 \/ n = 42 \/ n = 43 \/ (63 <= n <= 91)
               \/ n = 93 \/ n = 92 \/ n = 94 \/ n = 36 \/ n = 123
               \/ n = 125 \/ n = 124).

(** jsparser.js adds [/] to the class. *)
Definition class_jsparser (c : Ascii.ascii) : bool :=
  class_stringlexer c || bool_decide (Ascii.nat_of_ascii c = 47).

(** The regular-expression engine is outside the repository and is taken
    as a parameter: [new_RegExp src] is [new RegExp(src, 'g')], [None]
    when the source is rejected with a SyntaxError, and [matchAll re str]
    lists the matches of [str.matchAll(re)] in order. *)
Record engine : Type := Engine {
  regex : Type;
  new_RegExp : string -> option regex;
  matchAll : regex -> string -> list rmatch
}.

(** *** stringlexer.js *)

Module StringLexer.

Definition escaped : string -> string := escape_with class_stringlexer.

(** [this.tokens] is an object used as a map from names to sources; it
    is kept as the list of its entries, in the order in which
    [Object.entries] lists names that are not array indices. *)
Record lexer : Type := Lexer {
  tokens : list (string * string);
  keepws : bool;
  unknownhandler : token -> res token
}.

(** [obj[k] = v] *)
Fixpoint assign (k v : string) (l : list (string * string))
  : list (string * string) :=
  match l with
  | [] => [(k, v)]
  | (k', v') :: l' =>
      if String.eqb k' k then (k, v) :: l' else (k', v') :: assign k v l'
  end.

(** The method of the class: [throw token]. *)
Definition default_unknownhandler (t : token) : res token :=
  Err (ThrowToken t).

(** [constructor(ws = /[ \r\n]+/)]: [ws] is the source of the regular
    expression given, [None] for a falsy argument. *)
Definition new (ws : option string) : lexer :=
  Lexer (match ws with Some src => [("whitespace", src)] | None => [] end)
    false default_unknownhandler.

Definition new_default : lexer := new (Some "[ \r\n]+").

(** The [value] argument of [define]. *)
Inductive defvalue : Type :=
| DVUndefined
| DVString (s : string)
| DVRegExp (source : string).

Definition define (nm : string) (v : defvalue) (lx : lexer) : lexer :=
  let v := match v with DVUndefined => DVString nm | _ => v end in
  match v with
  | DVString s =>
      Lexer (assign nm (escaped s) (tokens lx)) (keepws lx) (unknownhandler lx)
  | DVRegExp src =>
      Lexer (assign nm src (tokens lx)) (keepws lx) (unknownhandler lx)
  | DVUndefined => lx
  end.

Section Compile.
Variable E : engine.

(** What [compile] leaves in the closure of [this.tokenizer]. *)
Record compiled : Type := Compiled {
  src : list string;
  tokennames : list string;
  re : regex E
}.

Definition compile (lx : lexer) : res compiled :=
  let tokennames := fst <$> tokens lx in
  let src := (fun kv => "(" +:+ snd kv +:+ ")") <$> tokens lx in
  match new_RegExp E (String.concat "|" src) with
  | Some re => Ok (Compiled src tokennames re)
  | None => Err (SyntaxError (String.concat "|" src))
  end.

Section Tokenizer.
Variables (lx : lexer) (c : compiled) (str : string).

(** The text between [lastmatch] and the start of the match. *)
Definition gap (toks : list token) (lastmatch upto : nat)
  : res (list token) :=
  if bool_decide (lastmatch < upto) then
    try t <- unknownhandler lx
               (unknown_token (slice str lastmatch upto) lastmatch);
    Ok (toks ++ [t])
  else Ok toks.

Definition match_name (m : rmatch) : option string :=
  let tokenno := findIndex group_truthy (groups m) in
  array_get (tokennames c) tokenno.

(** The matched token is kept unless it is whitespace that is not
    wanted. *)
Definition emit (toks : list token) (m : rmatch) : res (list token) :=
  let nm := match_name m in
  if negb (bool_decide (nm = Some "whitespace")) || keepws lx
  then Ok (toks ++ [Token nm (m0 m) (index m)])
  else Ok toks.

(** One turn of [for (let m of str.matchAll(re))]. *)
Definition step (acc : list token * nat) (m : rmatch)
  : res (list token * nat) :=
  let '(toks, lastmatch) := acc in
  try toks1 <- gap toks lastmatch (index m);
  try toks2 <- emit toks1 m;
  Ok (toks2, index m + String.length (m0 m)).

Fixpoint scan (ms : list rmatch) (acc : list token * nat)
  : res (list token * nat) :=
  match ms with
  | [] => Ok acc
  | m :: ms' => try acc' <- step acc m; scan ms' acc'
  end.

(** The trailing text after the last match. *)
Definition trailing (acc : list token * nat) : res (list token) :=
  let '(toks, lastmatch) := acc in
  if bool_decide (lastmatch < String.length str) then
    try t <- unknownhandler lx
               (unknown_token (slice_end str lastmatch) lastmatch);
    Ok (toks ++ [t])
  else Ok toks.

Definition tokenizer : res (list token) :=
  try acc <- scan (matchAll E (re c) str) ([], 0); trailing acc.
End Tokenizer.

(** [tokenize(str)] compiles when needed and returns
    [{ tokens: this.tokenizer(str), cursor: 0, ast: [] }]; the
    compiled tokenizer is cached until the next [define]. *)
Definition tokenize (lx : lexer) (str : string) : res (list token) :=
  try c <- compile lx; tokenizer lx c str.
End Compile.

End StringLexer.

(** *** jsparser.js: the variadic [Lexer] *)

Module JsLexer.

Definition escaped : string -> string := escape_with class_jsparser.

(** The value of a definition [{name: value}]. *)
Inductive patval : Type :=
| PString (s : string)
| PRegExp (source : string)
| PBool (b : bool)
| PNull
| PUndefined.

(** [if (v)] *)
Definition pat_truthy (v : patval) : bool :=
  match v with
  | PString s => negb (String.eqb s "")
  | PRegExp _ => true
  | PBool b => b
  | PNull | PUndefined => false
  end.

(** The conversion to a string done by ['(' + v + ')']. *)
Definition pat_to_string (v : patval) : string :=
  match v with
  | PString s => s
  | PRegExp source => "/" +:+ source +:+ "/"
  | PBool true => "true"
  | PBool false => "false"
  | PNull => "null"
  | PUndefined => "undefined"
  end.

(** An argument of the constructor or of [define]: a string, or an
    object with one property. *)
Inductive definition : Type :=
| DLiteral (s : string)
| DObject (k : string) (v : patval).

Record lexer : Type := Lexer {
  definitions : list (string * patval);
  keepws : bool;
  unknownhandler : token -> res token
}.

Definition default_unknownhandler (t : token) : res token :=
  Err (ThrowToken t).

(** [d[1].constructor] cannot be read off [null] or [undefined]. *)
Definition makedef (d : definition) : res (string * patval) :=
  match d with
  | DLiteral s => Ok (s, PString (escaped s))
  | DObject k v =>
      match v with
      | PNull | PUndefined => Err (TypeError "constructor")
      | PRegExp source => Ok (k, PString source)
      | _ => Ok (k, v)
      end
  end.

Definition findtoken (nm : string) (lx : lexer) : Z :=
  findIndex (fun d => String.eqb (fst d) nm) (definitions lx).

(** [define(d, before)].  The test [d.name == 'whitespace'] reads the
    property [name] of the array made by [makedef], which is undefined,
    so its branch is never entered. *)
Definition define (d : definition) (before : option string) (lx : lexer)
  : res lexer :=
  try d' <- makedef d;
  match before with
  | None | Some EmptyString =>
      Ok (Lexer (definitions lx ++ [d']) (keepws lx) (unknownhandler lx))
  | Some b =>
      let i := findtoken b lx in
      if (i =? -1)%Z then Err (ThrowString "cant find the token")
      else Ok (Lexer (take (Z.to_nat i) (definitions lx) ++ d'
                        :: drop (Z.to_nat i) (definitions lx))
                 (keepws lx) (unknownhandler lx))
  end.

(** [definitions.map((d) => this.makedef(d))] *)
Fixpoint makedefs (ds : list definition) : res (list (string * patval)) :=
  match ds with
  | [] => Ok []
  | d :: ds' => try x <- makedef d; try xs <- makedefs ds'; Ok (x :: xs)
  end.

(** [constructor(...definitions)] *)
Definition new (ds : list definition) : res lexer :=
  try defs <- makedefs ds;
  let lx := Lexer defs false default_unknownhandler in
  if (findtoken "whitespace" lx =? -1)%Z
  then define (DObject "whitespace" (PString "[ \r\n]+")) None lx
  else Ok lx.

(** The loop of [compile]: the sources and names of the definitions
    with a truthy value. *)
Fixpoint collect (defs : list (string * patval))
  : list string * list string :=
  match defs with
  | [] => ([], [])
  | (k, v) :: rest =>
      let '(src, tokennames) := collect rest in
      if pat_truthy v
      then (("(" +:+ pat_to_string v +:+ ")") :: src, k :: tokennames)
      else (src, tokennames)
  end.

Section Compile.
Variable E : engine.

Record compiled : Type := Compiled {
  src : list string;
  tokennames : list string;
  re : regex E
}.

Definition compile (lx : lexer) : res compiled :=
  let '(src, tokennames) := collect (definitions lx) in
  match new_RegExp E (String.concat "|" src) with
  | Some re => Ok (Compiled src tokennames re)
  | None => Err (SyntaxError (String.concat "|" src))
  end.

Section Tokenizer.
Variables (lx : lexer) (c : compiled) (str : string).

Definition gap (toks : list token) (lastmatch upto : nat)
  : res (list token) :=
  if bool_decide (lastmatch < upto) then
    try t <- unknownhandler lx
               (unknown_token (slice str lastmatch upto) lastmatch);
    Ok (toks ++ [t])
  else Ok toks.

Definition match_name (m : rmatch) : option string :=
  let tokenno := findIndex group_truthy (groups m) in
  array_get (tokennames c) tokenno.

(** The matched token is kept unless it is whitespace that is not
    wanted; a kept token with an empty text is an error. *)
Definition emit (toks : list token) (m : rmatch) : res (list token) :=
  let nm := match_name m in
  if negb (bool_decide (nm = Some "whitespace")) || keepws lx
  then
    let toks' := toks ++ [Token nm (m0 m) (index m)] in
    if bool_decide (String.length (m0 m) = 0)
    then Err (ZeroLengthToken nm (index m))
    else Ok toks'
  else Ok toks.

Definition step (acc : list token * nat) (m : rmatch)
  : res (list token * nat) :=
  let '(toks, lastmatch) := acc in
  try toks1 <- gap toks lastmatch (index m);
  try toks2 <- emit toks1 m;
  Ok (toks2, index m + String.length (m0 m)).

Fixpoint scan (ms : list rmatch) (acc : list token * nat)
  : res (list token * nat) :=
  match ms with
  | [] => Ok acc
  | m :: ms' => try acc' <- step acc m; scan ms' acc'
  end.

Definition trailing (acc : list token * nat) : res (list token) :=
  let '(toks, lastmatch) := acc in
  if bool_decide (lastmatch < String.length str) then
    try t <- unknownhandler lx
               (unknown_token (slice_end str lastmatch) lastmatch);
    Ok (toks ++ [t])
  else Ok toks.

Definition tokenizer : res (list token) :=
  try acc <- scan (matchAll E (re c) str) ([], 0); trailing acc.
End Tokenizer.

(** [tokenize(str)]: compiles when needed and returns
    [this.tokenizer(str)]. *)
Definition tokenize (lx : lexer) (str : string) : res (list token) :=
  try c <- compile lx; tokenizer lx c str.
End Compile.

End JsLexer.

(** An engine given by a table: the matches that the regular expression
    with source [src] has over the input [str] are listed by hand. *)
Definition table_engine (tbl : list (string * string * list rmatch)) : engine :=
  Engine string (fun src => Some src)
    (fun src str =>
       match list_find (fun e => e.1 = (src, str)) tbl with
       | Some (_, e) => e.2
       | None => []
       end).

(** A parse state over freshly made tokens:
    [{ tokens, cursor: 0, ast: [] }]. *)
Definition fresh_state (toks : list token) : state :=
  State (List.seq 0 (length toks)) 0 [] None (OToken <$> toks).

(** [v.name = nm], as an action or a handler may do to a token or a node
    it was given. *)
Definition rename (v : value) (nm : string) (s : state) : state :=
  match v with
  | VRef l =>
      match heap s !! l with
      | Some (OToken t) =>
          set_heap (<[l := OToken (Token (Some nm) (text t) (tcursor t))]> (heap s)) s
      | Some (ONode _ children) =>
          set_heap (<[l := ONode nm children]> (heap s)) s
      | None => s
      end
  | _ => s
  end.

(** ** The two halves of node creation *)

(** The state in which the actions start: the stack is cut back to the
    checkpoint and the new node [{name, children}] is in the store, at the
    location [length (heap s1)]. *)
Definition node_made (nm : string) (saved : checkpoint) (s1 : state) : state :=
  State (tokens s1) (cursor s1) (set_length (sv_astlen saved) (ast s1))
    (cut_ s1)
    (heap s1 ++ [ONode nm (drop (sv_astlen saved) (ast s1))]).

(** What [nodefn] does with the outcome of the action chain: it pushes the
    value the chain ended with, or restores the checkpoint after a veto. *)
Definition node_outcome (saved : checkpoint) (r : outcome (value + unit))
  : outcome bool :=
  match r with
  | Ret (inl node) s4 => Ret true (push node s4)
  | Ret (inr _) s4 => Parsers.restore saved s4
  | Throw e s4 => Throw e s4
  | OutOfFuel => OutOfFuel
  end.

(** ** Enclosing levels *)

(** [reaches inner si P so]: the rule [P], started in the state [so],
    calls [inner] in the state [si] from inside any number of enclosing
    alternatives, sequences, [bt], [node] and [many] levels. *)
Inductive reaches (inner : parser) (si : state) : parser -> state -> Prop :=
| reach_here : reaches inner si inner si
| reach_alt_l P q so :
    reaches inner si P so -> reaches inner si (alt P q) so
| reach_alt_r q P so s1 :
    q so = Ret false s1 -> reaches inner si P s1 ->
    reaches inner si (alt q P) so
| reach_seq_l P q so :
    reaches inner si P so -> reaches inner si (seq P q) so
| reach_seq_r q P so s1 :
    q so = Ret true s1 -> reaches inner si P s1 ->
    reaches inner si (seq q P) so
| reach_bt P so :
    reaches inner si P so -> reaches inner si (Parsers.bt P) so
| reach_bt_js P so :
    reaches inner si P so -> reaches inner si (JsParser.bt P) so
| reach_node np so :
    reaches inner si (np_parser np) so ->
    reaches inner si (Parsers.nodefn np) so
| reach_node_js np so :
    reaches inner si (np_parser np) so ->
    reaches inner si (JsParser.nodefn np) so
| reach_many fuel P so :
    reaches inner si P so -> reaches inner si (Parsers.many (S fuel) P) so
| reach_many_next fuel P so s1 :
    P so = Ret true s1 -> reaches inner si (Parsers.many fuel P) s1 ->
    reaches inner si (Parsers.many (S fuel) P) so
| reach_many_js fuel P so :
    reaches inner si P so -> reaches inner si (JsParser.many (S fuel) P) so
| reach_many_js_next fuel P so s1 :
    P so = Ret true s1 -> cursor s1 <> cursor so ->
    reaches inner si (JsParser.many fuel P) s1 ->
    reaches inner si (JsParser.many (S fuel) P) so.

(** ** A small grammar

    [expr = node("expr", match(number) &&
                         many(bt((match(plus) || match(minus)) &&
                                 cut(1) && match(number))))] *)

Module Example.

Definition tail : parser :=
  seq (alt (JsParser.match_ "plus") (JsParser.match_ "minus"))
    (seq (JsParser.cut (VNum 1)) (JsParser.match_ "number")).

Definition expr : parser :=
  JsParser.nodefn
    (JsParser.node "expr"
       (seq (JsParser.match_ "number")
          (JsParser.many 10 (JsParser.bt tail))) 0).

Definition number (txt : string) (at_pos : nat) : token :=
  Token (Some "number") txt at_pos.
Definition plus (at_pos : nat) : token := Token (Some "plus") "+" at_pos.

(** The input [1 +]: before parsing, after the first number, and when the
    number after the cut is found missing. *)
Definition s_start : state := fresh_state [number "1" 0; plus 1].
Definition s_number : state :=
  State [0; 1] 1 [VRef 2] None
    [OToken (number "1" 0); OToken (plus 1); OToken (number "1" 0)].
Definition s_stuck : state :=
  State [0; 1] 2 [VRef 2; VRef 3] (Some (CutMark (VNum 1) 2))
    [OToken (number "1" 0); OToken (plus 1); OToken (number "1" 0);
     OToken (plus 1)].

(** After two [keep]s on that input. *)
Definition s_stuck_nocut : state :=
  State [0; 1] 2 [VRef 2; VRef 3] None
    [OToken (number "1" 0); OToken (plus 1); OToken (number "1" 0);
     OToken (plus 1)].

End Example.

(** ** Tokenizer examples and vocabulary *)

(** The position just after the last match of [ms], 0 when there is none. *)
Definition last_end (ms : list rmatch) : nat :=
  match last ms with
  | Some m => index m + String.length (m0 m)
  | None => 0
  end.

(** An unknown span is handled: the span goes to the handler as a token
    named "unknown" with its offset; when the handler throws, tokenizing
    ends with what it threw, and when it returns a token, that token comes
    in the output right after the tokens made before the span. *)
Definition unknown_span_handled (handler : token -> res token)
    (result : res (list token)) (before : list token)
    (span : string) (offset : nat) : Prop :=
  (forall e, handler (unknown_token span offset) = Err e -> result = Err e) /\
  (forall t out,
     handler (unknown_token span offset) = Ok t -> result = Ok out ->
     exists rest, out = before ++ t :: rest).

(** No token of the array has the name [k]. *)
Definition none_named (k : string) (toks : list token) : Prop :=
  forall t, t ∈ toks -> name t <> Some k.

(** No token of the output of the scanner of [lx] has the name [k]. *)
Definition never_emits (E : engine) (lx : JsLexer.lexer) (k : string) : Prop :=
  forall c str out,
    JsLexer.compile E lx = Ok c ->
    JsLexer.tokenizer E lx c str = Ok out ->
    none_named k out.

Module LexExample.

(** [new Lexer({number: /[0-9]+/}, {plus: /\+/}, {minus: /-/})] *)
Definition defs : list JsLexer.definition :=
  [JsLexer.DObject "number" (JsLexer.PRegExp "[0-9]+");
   JsLexer.DObject "plus" (JsLexer.PRegExp "\+");
   JsLexer.DObject "minus" (JsLexer.PRegExp "-")].

Definition lx : JsLexer.lexer :=
  JsLexer.Lexer
    [("number", JsLexer.PString "[0-9]+"); ("plus", JsLexer.PString "\+");
     ("minus", JsLexer.PString "-"); ("whitespace", JsLexer.PString "[ \r\n]+")]
    false JsLexer.default_unknownhandler.

Definition source : string := "([0-9]+)|(\+)|(-)|([ \r\n]+)".

(** The matches of the scanner over the inputs [12 + 7] and [12 @ 7]. *)
Definition m_12 : rmatch := RMatch 0 "12" [Some "12"; None; None; None].
Definition m_sp (i : nat) : rmatch := RMatch i " " [None; None; None; Some " "].
Definition m_plus : rmatch := RMatch 3 "+" [None; Some "+"; None; None].
Definition m_7 : rmatch := RMatch 5 "7" [Some "7"; None; None; None].

Definition E : engine :=
  table_engine
    [(source, "12 + 7", [m_12; m_sp 2; m_plus; m_sp 4; m_7]);
     (source, "12 @ 7", [m_12; m_sp 2; m_sp 4; m_7])].

Definition c : JsLexer.compiled E :=
  JsLexer.Compiled E ["([0-9]+)"; "(\+)"; "(-)"; "([ \r\n]+)"]
    ["number"; "plus"; "minus"; "whitespace"] source.

(** stringlexer.js: [L = new Lexer(); L.define('num', /[0-9]*/)], and the
    matches of its scanner over the input [7]: the number, and the empty
    match at the end of the input. *)
Definition lx_star : StringLexer.lexer :=
  StringLexer.define "num" (StringLexer.DVRegExp "[0-9]*")
    StringLexer.new_default.

Definition E_star : engine :=
  table_engine
    [("([ \r\n]+)|([0-9]*)", "7",
      [RMatch 0 "7" [None; Some "7"]; RMatch 1 "" [None; Some ""]]);
     ("([0-9]*)|([ \r\n]+)", "7",
      [RMatch 0 "7" [Some "7"; None]; RMatch 1 "" [Some ""; None]])].

(** jsparser.js: [new Lexer({num: /[0-9]*/})] *)
Definition defs_star : list JsLexer.definition :=
  [JsLexer.DObject "num" (JsLexer.PRegExp "[0-9]*")].

(** jsparser.js: [new Lexer({a: false}, {a: 'x'})] and the match of its
    scanner over the input [x]. *)
Definition defs_twice : list JsLexer.definition :=
  [JsLexer.DObject "a" (JsLexer.PBool false);
   JsLexer.DObject "a" (JsLexer.PString "x")].

Definition E_twice : engine :=
  table_engine [("(x)|([ \r\n]+)", "x", [RMatch 0 "x" [Some "x"; None]])].

End LexExample.

(** ** The consume-and-keep primitive as the specification words it *)

(** "If a token exists at the cursor, push a copy of it onto the stack,
    advance the cursor by 1, succeed; else fail": the pushed entry refers
    to an object that did not exist before the call and has the contents of
    the token. *)
Definition consume_keep_spec (keep : parser) (s : state) : Prop :=
  match tokens s !! cursor s with
  | Some l =>
      exists l' s',
        keep s = Ret true s' /\
        cursor s' = S (cursor s) /\
        ast s' = ast s ++ [VRef l'] /\
        heap s !! l' = None /\
        heap s' !! l' = Some (heap s !!! l)
  | None => keep s = Ret false s
  end.

(** ** The primitives *)

(** The primitives of the two files, for a token name [nm]. *)
Definition primitives (nm : string) : list parser :=
  [Parsers.keep; Parsers.skip; Parsers.is_ nm; Parsers.match_ nm;
   Parsers.not_ nm; Parsers.eat nm; Parsers.END;
   JsParser.keep; JsParser.skip; JsParser.is_ nm; JsParser.match_ nm;
   JsParser.not_ nm; JsParser.eat nm; JsParser.END].

(** The primitives that consume a token. *)
Definition consumers (nm : string) : list parser :=
  [Parsers.keep; Parsers.skip; Parsers.match_ nm; Parsers.not_ nm;
   Parsers.eat nm;
   JsParser.keep; JsParser.skip; JsParser.match_ nm; JsParser.not_ nm;
   JsParser.eat nm].

(** ** Rules built from the library *)

(** An action that only computes the value that replaces the node. *)
Definition pure_action (act : action_fn) : Prop :=
  forall v s, exists v', act v s = Ret v' s.

(** The rules that a grammar makes from the primitives and the combinators
    of the two files.  [do r <- p; if r then q1 else q2] covers
    [p || q] ([q1] is [ret true]), [p && q] ([q2] is [ret false]) and
    [!p && q]; [ret true] is the rule [state => state]. *)
Inductive grammar : parser -> Prop :=
| g_ret b : grammar (ret b)
| g_keep : grammar Parsers.keep
| g_keep_js : grammar JsParser.keep
| g_skip : grammar Parsers.skip
| g_is nm : grammar (Parsers.is_ nm)
| g_cut lbl : grammar (Parsers.cut lbl)
| g_END : grammar Parsers.END
| g_cond p q1 q2 :
    grammar p -> grammar q1 -> grammar q2 ->
    grammar (do r <- p; if r then q1 else q2)
| g_bt p : grammar p -> grammar (Parsers.bt p)
| g_bt_js p : grammar p -> grammar (JsParser.bt p)
| g_node np :
    grammar (np_parser np) -> Forall pure_action (actions np) ->
    grammar (Parsers.nodefn np)
| g_node_js np :
    grammar (np_parser np) -> Forall pure_action (actions np) ->
    grammar (JsParser.nodefn np)
| g_many fuel p : grammar p -> grammar (Parsers.many fuel p)
| g_many_js fuel p : grammar p -> grammar (JsParser.many fuel p).

(** The rules of jsparser.js in which every [many] is given more than [n]
    evaluations of its loop condition. *)
Inductive js_grammar (n : nat) : parser -> Prop :=
| jg_ret b : js_grammar n (ret b)
| jg_keep : js_grammar n JsParser.keep
| jg_skip : js_grammar n JsParser.skip
| jg_is nm : js_grammar n (JsParser.is_ nm)
| jg_cut lbl : js_grammar n (JsParser.cut lbl)
| jg_END : js_grammar n JsParser.END
| jg_cond p q1 q2 :
    js_grammar n p -> js_grammar n q1 -> js_grammar n q2 ->
    js_grammar n (do r <- p; if r then q1 else q2)
| jg_bt p : js_grammar n p -> js_grammar n (JsParser.bt p)
| jg_node np :
    js_grammar n (np_parser np) -> Forall pure_action (actions np) ->
    js_grammar n (JsParser.nodefn np)
| jg_many fuel p : n < fuel -> js_grammar n p -> js_grammar n (JsParser.many fuel p).

(** How the state after a rule relates to the state before it. *)
Record keeps (s s' : state) : Prop := Keeps {
  keeps_tokens : tokens s' = tokens s;
  keeps_cursor : cursor s <= cursor s';
  keeps_bound :
    cursor s <= length (tokens s) -> cursor s' <= length (tokens s');
  keeps_ast : ast s `prefix_of` ast s';
  keeps_heap : heap s `prefix_of` heap s';
  keeps_cut :
    cut_ s' = cut_ s \/ exists c, cut_ s' = Some c /\ cursor s <= at_ c
}.

(** The state an outcome ends in. *)
Definition final_state {A} (o : outcome A) : option state :=
  match o with
  | Ret _ s => Some s
  | Throw _ s => Some s
  | OutOfFuel => None
  end.

(** ** Tokens and the input *)

(** What [str.matchAll(re)] yields over [str], from the position [from] on:
    matches in order, without overlap, inside the input, each with the text
    it covers. *)
Fixpoint in_order (str : string) (from : nat) (ms : list rmatch) : Prop :=
  match ms with
  | [] => True
  | m :: ms' =>
      from <= index m /\
      index m + String.length (m0 m) <= String.length str /\
      m0 m = slice str (index m) (index m + String.length (m0 m)) /\
      in_order str (index m + String.length (m0 m)) ms'
  end.

(** The token has the text that the input has at its offset. *)
Definition placed (str : string) (t : token) : Prop :=
  tcursor t + String.length (text t) <= String.length str /\
  text t = slice str (tcursor t) (tcursor t + String.length (text t)).

(** The tokens lie in the input one after the other, from [from] on, and
    end at [to]. *)
Fixpoint ordered (str : string) (from : nat) (toks : list token) (to : nat)
  : Prop :=
  match toks with
  | [] => from <= to
  | t :: rest =>
      from <= tcursor t /\ placed str t /\
      ordered str (tcursor t + String.length (text t)) rest to
  end.

(** The tokens cover the input from [from] to [to] without a hole. *)
Fixpoint tiles (str : string) (from : nat) (toks : list token) (to : nat)
  : Prop :=
  match toks with
  | [] => from = to
  | t :: rest =>
      tcursor t = from /\ placed str t /\
      tiles str (tcursor t + String.length (text t)) rest to
  end.

(** A handler that returns the span it was given, renamed or not (as the
    handler of tests/csv.js does). *)
Definition span_keeping (handler : token -> res token) : Prop :=
  forall u t, handler u = Ok t -> text t = text u /\ tcursor t = tcursor u.

(** [token.name = 'unquoted'; return token], the handler of tests/csv.js. *)
Definition csv_unknownhandler (t : token) : res token :=
  Ok (Token (Some "unquoted") (text t) (tcursor t)).

(** The texts of the tokens, joined. *)
Fixpoint texts (toks : list token) : string :=
  match toks with
  | [] => ""
  | t :: rest => text t +:+ texts rest
  end.


(** The source that [define(name, value)] of stringlexer.js stores. *)
Definition stored_source (nm : string) (v : StringLexer.defvalue) : string :=
  match v with
  | StringLexer.DVUndefined => StringLexer.escaped nm
  | StringLexer.DVString s => StringLexer.escaped s
  | StringLexer.DVRegExp source => source
  end.

(** The character occurs in the string. *)
Fixpoint occurs (c : Ascii.ascii) (s : string) : Prop :=
  match s with
  | EmptyString => False
  | String c' s' => c' = c \/ occurs c s'
  end.

(** A definition whose value [makedef] cannot read. *)
Definition nullish (d : JsLexer.definition) : Prop :=
  exists k, d = JsLexer.DObject k JsLexer.PNull \/
            d = JsLexer.DObject k JsLexer.PUndefined.

(** A Lexer of stringlexer.js after a series of [define] calls. *)
Definition defines (lx : StringLexer.lexer)
    (ds : list (string * StringLexer.defvalue)) : StringLexer.lexer :=
  foldl (fun lx d => StringLexer.define d.1 d.2 lx) lx ds.

(** * Properties *)

(** ** Array length *)

Lemma length_set_length n a : length (set_length n a) = n.
Proof.
  unfold set_length. rewrite length_app, length_take, length_replicate. lia.
Qed.

Lemma set_length_app a pushed : set_length (length a) (a ++ pushed) = a.
Proof.
  unfold set_length. rewrite take_app_length, length_app.
  replace (length a - (length a + length pushed)) with 0 by lia.
  simpl. apply app_nil_r.
Qed.

Lemma set_length_le n a : n <= length a -> set_length n a = take n a.
Proof.
  intros H. unfold set_length.
  replace (n - length a) with 0 by lia. simpl. apply app_nil_r.
Qed.

Lemma set_length_lookup n a i :
  i < n -> i < length a -> set_length n a !! i = a !! i.
Proof.
  intros Hn Ha. unfold set_length.
  rewrite lookup_app_l by (rewrite length_take; lia).
  apply lookup_take_lt; lia.
Qed.

(** ** The two variants agree on the backtracking protocol *)

Lemma restore_agree saved s : JsParser.restore saved s = Parsers.restore saved s.
Proof. reflexivity. Qed.

Lemma bt_agree p s : JsParser.bt p s = Parsers.bt p s.
Proof.
  unfold JsParser.bt, Parsers.bt, alt, bind, ret.
  destruct (p s) as [[|] s'| |]; reflexivity.
Qed.

Lemma nodefn_agree np s : JsParser.nodefn np s = Parsers.nodefn np s.
Proof.
  unfold JsParser.nodefn, Parsers.nodefn.
  destruct (np_parser np s) as [[|] s1| |]; reflexivity.
Qed.

(** ** restore *)

Lemma restore_throws saved s :
  cut_at_or_after (sv_cursor saved) s = true ->
  Parsers.restore saved s = Throw ThrowState s.
Proof. unfold Parsers.restore. intros ->. reflexivity. Qed.

Lemma restore_rewinds saved s :
  cut_at_or_after (sv_cursor saved) s = false ->
  Parsers.restore saved s = Ret false (rewind saved s).
Proof. unfold Parsers.restore. intros ->. reflexivity. Qed.

Lemma cut_at_or_after_true n s :
  cut_at_or_after n s = true <-> exists c, cut_ s = Some c /\ n <= at_ c.
Proof.
  unfold cut_at_or_after. destruct (cut_ s) as [c|].
  - rewrite bool_decide_eq_true. split; [eauto|]. intros (c' & [= <-] & H). exact H.
  - split; [discriminate|]. intros (c' & [=] & _).
Qed.

Lemma cut_at_or_after_false n s :
  cut_at_or_after n s = false <-> forall c, cut_ s = Some c -> at_ c < n.
Proof.
  unfold cut_at_or_after. destruct (cut_ s) as [c|].
  - rewrite bool_decide_eq_false. split.
    + intros H c' [= <-]. lia.
    + intros H. specialize (H c eq_refl). lia.
  - split; [intros _ c' [=] | reflexivity].
Qed.

(** C8: when [restore] returns instead of throwing, it has reported
    failure and changed only the cursor and the length of the stack: the
    token array, the cut marker and the objects of the store are as before,
    the stack entries below the checkpoint length are kept, and a cut marker
    recorded strictly below the checkpoint cursor is still set afterwards.
    This holds for the [restore] of parsers.js and of jsparser.js. *)
Theorem restore_frame (saved : checkpoint) (s : state) :
  (forall b s',
     Parsers.restore saved s = Ret b s' \/ JsParser.restore saved s = Ret b s' ->
     b = false /\
     tokens s' = tokens s /\ cut_ s' = cut_ s /\ heap s' = heap s /\
     cursor s' = sv_cursor saved /\
     length (ast s') = sv_astlen saved /\
     (forall i, i < sv_astlen saved -> i < length (ast s) ->
                ast s' !! i = ast s !! i)) /\
  (forall c,
     cut_ s = Some c -> at_ c < sv_cursor saved ->
     exists s',
       Parsers.restore saved s = Ret false s' /\
       JsParser.restore saved s = Ret false s' /\
       cut_ s' = Some c).
Proof.
  split.
  - intros b s' H.
    assert (Hp : Parsers.restore saved s = Ret b s')
      by (destruct H as [H|H]; exact H).
    clear H. unfold Parsers.restore in Hp.
    destruct (cut_at_or_after (sv_cursor saved) s); [discriminate|].
    injection Hp as <- <-. simpl.
    repeat split; try reflexivity.
    + apply length_set_length.
    + intros i Hi Hi'. apply set_length_lookup; assumption.
  - intros c Hc Hlt. exists (rewind saved s).
    assert (Hf : cut_at_or_after (sv_cursor saved) s = false).
    { apply cut_at_or_after_false. intros c' Hc'.
      rewrite Hc in Hc'. injection Hc' as <-. exact Hlt. }
    change (JsParser.restore saved s) with (Parsers.restore saved s).
    rewrite (restore_rewinds _ _ Hf). auto.
Qed.

Lemma restore_frame_witness :
  exists s',
    Parsers.restore (Checkpoint 2 0)
      (State [0; 1; 2] 3 [VRef 0; VRef 1] (Some (CutMark (VNum 1) 1)) []) =
      Ret false s' /\
    JsParser.restore (Checkpoint 2 0)
      (State [0; 1; 2] 3 [VRef 0; VRef 1] (Some (CutMark (VNum 1) 1)) []) =
      Ret false s' /\
    cut_ s' = Some (CutMark (VNum 1) 1).
Proof.
  apply (proj2 (restore_frame (Checkpoint 2 0)
                  (State [0; 1; 2] 3 [VRef 0; VRef 1]
                     (Some (CutMark (VNum 1) 1)) []))
           (CutMark (VNum 1) 1)).
  - reflexivity.
  - simpl. lia.
Defined.

(** C2: when [p] fails and no cut marker is at or after the checkpoint
    cursor, [bt(p)] reports failure, the cursor is the one before the call
    and the stack has the length it had before the call (it is the stack
    before the call when [p] only pushed); when [p] succeeds, [bt(p)]
    succeeds with the state that [p] produced. *)
Theorem bt_backtracks (p : parser) (s s1 : state) :
  (p s = Ret false s1 ->
   (forall c, cut_ s1 = Some c -> at_ c < cursor s) ->
   exists s2,
     Parsers.bt p s = Ret false s2 /\ JsParser.bt p s = Ret false s2 /\
     cursor s2 = cursor s /\
     length (ast s2) = length (ast s) /\
     (length (ast s) <= length (ast s1) ->
      ast s2 = take (length (ast s)) (ast s1)) /\
     (forall pushed, ast s1 = ast s ++ pushed -> ast s2 = ast s)) /\
  (p s = Ret true s1 ->
   Parsers.bt p s = Ret true s1 /\ JsParser.bt p s = Ret true s1).
Proof.
  split.
  - intros Hp Hcut.
    exists (rewind (Parsers.save s) s1).
    assert (Hb : Parsers.bt p s = Ret false (rewind (Parsers.save s) s1)).
    { unfold Parsers.bt. rewrite Hp. apply restore_rewinds.
      apply cut_at_or_after_false. exact Hcut. }
    rewrite bt_agree, Hb. simpl.
    repeat split.
    + apply length_set_length.
    + apply set_length_le.
    + intros pushed ->. apply set_length_app.
  - intros Hp. rewrite bt_agree. unfold Parsers.bt. rewrite Hp. auto.
Qed.

Lemma bt_backtracks_witness :
  exists s2,
    Parsers.bt (seq Parsers.keep (Parsers.is_ "plus"))
      (fresh_state [Token (Some "number") "1" 0]) = Ret false s2 /\
    cursor s2 = 0 /\ ast s2 = [].
Proof.
  destruct (proj1 (bt_backtracks (seq Parsers.keep (Parsers.is_ "plus"))
                     (fresh_state [Token (Some "number") "1" 0])
                     (State [0] 1 [VRef 0] None
                        [OToken (Token (Some "number") "1" 0)]))
              eq_refl
              ltac:(intros c Hc; discriminate Hc))
    as (s2 & Hb & _ & Hcur & _ & _ & Hast).
  exists s2. split; [exact Hb|]. split; [exact Hcur|].
  exact (Hast [VRef 0] eq_refl).
Defined.

(** ** Exceptions pass through every enclosing level *)

Lemma many_js_unfold fuel P so s1 :
  P so = Ret true s1 -> cursor s1 <> cursor so ->
  JsParser.many (S fuel) P so = JsParser.many fuel P s1.
Proof.
  intros HP Hne. unfold JsParser.many. simpl. rewrite HP.
  rewrite bool_decide_eq_false_2 by exact Hne. reflexivity.
Qed.

Lemma throw_propagates inner si P so e s' :
  reaches inner si P so -> inner si = Throw e s' -> P so = Throw e s'.
Proof.
  intros Hr Hi.
  induction Hr as
    [ | P q so _ IH | q P so s1 Hq _ IH | P q so _ IH | q P so s1 Hq _ IH
      | P so _ IH | P so _ IH | np so _ IH | np so _ IH
      | fuel P so _ IH | fuel P so s1 HP _ IH
      | fuel P so _ IH | fuel P so s1 HP Hne _ IH ].
  - exact Hi.
  - unfold alt, bind. rewrite IH. reflexivity.
  - unfold alt, bind. rewrite Hq. exact IH.
  - unfold seq, bind. rewrite IH. reflexivity.
  - unfold seq, bind. rewrite Hq. exact IH.
  - unfold Parsers.bt. rewrite IH. reflexivity.
  - rewrite bt_agree. unfold Parsers.bt. rewrite IH. reflexivity.
  - unfold Parsers.nodefn. rewrite IH. reflexivity.
  - rewrite nodefn_agree. unfold Parsers.nodefn. rewrite IH. reflexivity.
  - simpl. rewrite IH. reflexivity.
  - simpl. rewrite HP. exact IH.
  - unfold JsParser.many. simpl. rewrite IH. reflexivity.
  - rewrite (many_js_unfold _ _ _ _ HP Hne). exact IH.
Qed.

(** C1: in a state whose cut marker is at token index [K], restoring a
    checkpoint whose cursor is at most [K] throws the live state, which
    carries the label and the index of the cut; the exception leaves every
    rule that encloses the rule whose run ends in this restore, at any
    depth of alternatives, sequences, [bt], [node] and [many]; restoring a
    checkpoint whose cursor is greater than [K] is an ordinary restore that
    reports failure. *)
Theorem cut_fires (s : state) (saved : checkpoint) (lbl : value) (K : nat) :
  cut_ s = Some (CutMark lbl K) ->
  (sv_cursor saved <= K ->
   Parsers.restore saved s = Throw ThrowState s /\
   JsParser.restore saved s = Throw ThrowState s /\
   forall (inner : parser) (so : state) (P : parser) (top : state),
     inner so = Parsers.restore saved s \/ inner so = JsParser.restore saved s ->
     reaches inner so P top ->
     P top = Throw ThrowState s) /\
  (K < sv_cursor saved ->
   Parsers.restore saved s = Ret false (rewind saved s) /\
   JsParser.restore saved s = Ret false (rewind saved s)).
Proof.
  intros Hcut. split.
  - intros Hle.
    assert (Ht : cut_at_or_after (sv_cursor saved) s = true).
    { apply cut_at_or_after_true. exists (CutMark lbl K). auto. }
    split; [|split].
    + apply restore_throws, Ht.
    + apply restore_throws, Ht.
    + intros inner so P top Hi Hr.
      apply (throw_propagates _ _ _ _ _ _ Hr).
      destruct Hi as [-> | ->]; apply restore_throws, Ht.
  - intros Hlt.
    assert (Hf : cut_at_or_after (sv_cursor saved) s = false).
    { apply cut_at_or_after_false. intros c Hc.
      rewrite Hcut in Hc. injection Hc as <-. exact Hlt. }
    split; apply restore_rewinds, Hf.
Qed.

Lemma cut_fires_witness :
  Example.expr Example.s_start = Throw ThrowState Example.s_stuck /\
  cut_ Example.s_stuck = Some (CutMark (VNum 1) 2).
Proof.
  split; [|reflexivity].
  apply (proj2 (proj2 (proj1
           (cut_fires Example.s_stuck (Checkpoint 1 1) (VNum 1) 2 eq_refl)
           ltac:(simpl; lia)))
           (JsParser.bt Example.tail) Example.s_number).
  - right. reflexivity.
  - unfold Example.expr. apply reach_node_js. simpl.
    apply (reach_seq_r _ _ _ _ _ Example.s_number); [reflexivity|].
    apply reach_many_js, reach_here.
Defined.

(** ** node *)

Lemma nodefn_pass_through np s s1 :
  np_parser np s = Ret true s1 ->
  (Z.of_nat (length (ast s1)) - Z.of_nat (length (ast s)) <= np_count np)%Z ->
  Parsers.nodefn np s = Ret true s1.
Proof.
  intros Hp Hle. unfold Parsers.nodefn. rewrite Hp. simpl.
  rewrite bool_decide_eq_false_2 by lia. reflexivity.
Qed.

Lemma nodefn_creates np s s1 :
  np_parser np s = Ret true s1 ->
  (np_count np < Z.of_nat (length (ast s1)) - Z.of_nat (length (ast s)))%Z ->
  Parsers.nodefn np s =
    node_outcome (Parsers.save s)
      (Parsers.run_actions (actions np) (VRef (length (heap s1)))
         (node_made (np_name np) (Parsers.save s) s1)).
Proof.
  intros Hp Hlt. unfold Parsers.nodefn. rewrite Hp. simpl.
  rewrite bool_decide_eq_true_2 by lia. reflexivity.
Qed.

(** C3: when [p] succeeds and has pushed more than [minChildren] elements
    since the checkpoint, [node(name, p, minChildren)] removes the elements
    above the checkpoint from the stack and pushes in their place one
    reference to a new object [{name, children}] whose children are exactly
    those elements; when [p] succeeds without exceeding [minChildren], the
    state is the one [p] produced, with no node; with actions registered,
    that new node is what the action chain starts from, over the stack
    without those elements, and the value the chain ends with is what is
    pushed; and [cnode(name, p)] is [node(name, p, 1)]. *)
Theorem node_threshold (nm : string) (p : parser) (minChildren : Z)
    (s s1 : state) :
  p s = Ret true s1 ->
  ((minChildren < Z.of_nat (length (ast s1)) - Z.of_nat (length (ast s)))%Z ->
   exists s2,
     Parsers.nodefn (Parsers.node nm p minChildren) s = Ret true s2 /\
     JsParser.nodefn (JsParser.node nm p minChildren) s = Ret true s2 /\
     tokens s2 = tokens s1 /\ cursor s2 = cursor s1 /\ cut_ s2 = cut_ s1 /\
     ast s2 = set_length (length (ast s)) (ast s1) ++ [VRef (length (heap s1))] /\
     heap s2 = heap s1 ++ [ONode nm (drop (length (ast s)) (ast s1))] /\
     (forall pushed,
        ast s1 = ast s ++ pushed ->
        ast s2 = ast s ++ [VRef (length (heap s1))] /\
        heap s2 !! length (heap s1) = Some (ONode nm pushed))) /\
  ((Z.of_nat (length (ast s1)) - Z.of_nat (length (ast s)) <= minChildren)%Z ->
   Parsers.nodefn (Parsers.node nm p minChildren) s = Ret true s1 /\
   JsParser.nodefn (JsParser.node nm p minChildren) s = Ret true s1) /\
  (forall acts : list action_fn,
     (minChildren < Z.of_nat (length (ast s1)) - Z.of_nat (length (ast s)))%Z ->
     Parsers.nodefn (NodeParser nm p minChildren acts) s =
       node_outcome (Parsers.save s)
         (Parsers.run_actions acts (VRef (length (heap s1)))
            (node_made nm (Parsers.save s) s1)) /\
     JsParser.nodefn (NodeParser nm p minChildren acts) s =
       node_outcome (Parsers.save s)
         (Parsers.run_actions acts (VRef (length (heap s1)))
            (node_made nm (Parsers.save s) s1))) /\
  Parsers.cnode nm p = Parsers.node nm p 1 /\
  JsParser.cnode nm p = JsParser.node nm p 1.
Proof.
  intros Hp. split; [|split; [|split; [|split; reflexivity]]]; cycle 2.
  { intros acts Hlt.
    pose proof (nodefn_creates (NodeParser nm p minChildren acts) s s1 Hp Hlt)
      as Hn. simpl in Hn.
    split; [exact Hn|]. rewrite nodefn_agree. exact Hn. }
  - intros Hlt.
    pose proof (nodefn_creates (Parsers.node nm p minChildren) s s1 Hp Hlt)
      as Hn. simpl in Hn.
    eexists. split; [exact Hn|]. split.
    { rewrite nodefn_agree. exact Hn. }
    simpl. repeat split.
    + rewrite H, set_length_app. reflexivity.
    + rewrite H, drop_app_length. apply list_lookup_middle. reflexivity.
  - intros Hle.
    pose proof (nodefn_pass_through (Parsers.node nm p minChildren) s s1 Hp Hle)
      as Hn.
    split; [exact Hn|]. rewrite nodefn_agree. exact Hn.
Qed.

Lemma node_threshold_witness :
  exists s2,
    JsParser.nodefn
      (JsParser.cnode "X" (seq JsParser.keep JsParser.keep))
      (fresh_state [Example.number "1" 0; Example.plus 1]) = Ret true s2 /\
    ast s2 = [VRef 4] /\
    heap s2 !! 4 = Some (ONode "X" [VRef 2; VRef 3]).
Proof.
  destruct (proj1 (node_threshold "X" (seq JsParser.keep JsParser.keep) 1
                     (fresh_state [Example.number "1" 0; Example.plus 1])
                     Example.s_stuck_nocut eq_refl)
              ltac:(simpl; lia))
    as (s2 & _ & Hjs & _ & _ & _ & _ & _ & Hpushed).
  exists s2. split; [exact Hjs|].
  exact (Hpushed [VRef 2; VRef 3] eq_refl).
Defined.

(** C9: the actions registered on a node parser have no part in a match
    that creates no node.  When the wrapped parser succeeds without pushing
    more than the threshold, the node parser succeeds with the state the
    wrapped parser produced, whatever actions are registered (also ones that
    veto, change the state or throw), exactly as with no action at all; and
    when the wrapped parser fails, the outcome is the restore of the
    checkpoint, again whatever the actions. *)
Theorem actions_only_on_creation (np : nodeparser) (s s1 : state) :
  (np_parser np s = Ret true s1 ->
   (Z.of_nat (length (ast s1)) - Z.of_nat (length (ast s)) <= np_count np)%Z ->
   Parsers.nodefn np s = Ret true s1 /\
   JsParser.nodefn np s = Ret true s1 /\
   Parsers.nodefn np s =
     Parsers.nodefn (Parsers.node (np_name np) (np_parser np) (np_count np)) s /\
   JsParser.nodefn np s =
     JsParser.nodefn (JsParser.node (np_name np) (np_parser np) (np_count np)) s) /\
  (np_parser np s = Ret false s1 ->
   Parsers.nodefn np s = Parsers.restore (Parsers.save s) s1 /\
   JsParser.nodefn np s = JsParser.restore (JsParser.save s) s1).
Proof.
  split.
  - intros Hp Hle.
    pose proof (nodefn_pass_through np s s1 Hp Hle) as H1.
    pose proof (nodefn_pass_through
                  (Parsers.node (np_name np) (np_parser np) (np_count np))
                  s s1 Hp Hle) as H2.
    rewrite !nodefn_agree.
    change (JsParser.node (np_name np) (np_parser np) (np_count np))
      with (Parsers.node (np_name np) (np_parser np) (np_count np)).
    rewrite H1, H2. auto.
  - intros Hp. rewrite nodefn_agree. unfold Parsers.nodefn. rewrite Hp. auto.
Qed.

Lemma actions_only_on_creation_witness :
  Parsers.nodefn
    (Parsers.action (Parsers.cnode "X" Parsers.keep)
       (fun _ => ret (VBool false)))
    (fresh_state [Example.number "1" 0]) =
  Ret true (State [0] 1 [VRef 0] None [OToken (Example.number "1" 0)]).
Proof.
  apply (proj1 (actions_only_on_creation
                  (Parsers.action (Parsers.cnode "X" Parsers.keep)
                     (fun _ => ret (VBool false)))
                  (fresh_state [Example.number "1" 0])
                  (State [0] 1 [VRef 0] None [OToken (Example.number "1" 0)]))
           eq_refl ltac:(simpl; lia)).
Defined.

(** Where a node is created the actions do run: the same veto fails the
    match of a [node] with threshold 0, and the state is restored. *)
Example veto_fails_created_node :
  Parsers.nodefn
    (Parsers.action (Parsers.node "X" Parsers.keep 0)
       (fun _ => ret (VBool false)))
    (fresh_state [Example.number "1" 0]) =
  Ret false
    (State [0] 0 [] None
       [OToken (Example.number "1" 0); ONode "X" [VRef 0]]).
Proof. reflexivity. Qed.

(** The whole path for the input [12 + 7]: the tokens of the scanner, then
    one node [expr] whose children are the copies of the three tokens. *)
Example parse_sum :
  exists toks s,
    JsLexer.tokenize LexExample.E LexExample.lx "12 + 7" = Ok toks /\
    Example.expr (fresh_state toks) = Ret true s /\
    cursor s = 3 /\ ast s = [VRef 6] /\
    heap s !! 6 = Some (ONode "expr" [VRef 3; VRef 4; VRef 5]).
Proof. eexists _, _. repeat split; reflexivity. Qed.

(** ** keep *)

(** C5, as the claim states it, fails for parsers.js: over a state with
    one token, [keep] pushes the reference to the token object itself, not
    to a copy of it. *)
Lemma keep_copy_counterexample :
  ~ consume_keep_spec Parsers.keep (fresh_state [Example.number "1" 0]).
Proof.
  unfold consume_keep_spec. simpl.
  intros (l' & s' & Hk & _ & Hast & Hnone & _).
  injection Hk as <-. simpl in Hast.
  injection Hast as <-. discriminate Hnone.
Qed.

(** C5, amended: when a token exists at the cursor, [keep] succeeds,
    advances the cursor by exactly 1 and pushes one entry onto the stack;
    in jsparser.js the entry refers to a new object that is a copy of the
    token, in parsers.js it is the reference to the token object itself;
    nothing else changes.  When no token exists at the cursor, [keep] fails
    and the state is unchanged. *)
Theorem keep_pushes_token (s : state) :
  match tokens s !! cursor s with
  | Some l =>
      Parsers.keep s =
        Ret true (State (tokens s) (S (cursor s)) (ast s ++ [VRef l])
                    (cut_ s) (heap s)) /\
      JsParser.keep s =
        Ret true (State (tokens s) (S (cursor s))
                    (ast s ++ [VRef (length (heap s))])
                    (cut_ s) (heap s ++ [heap s !!! l]))
  | None => Parsers.keep s = Ret false s /\ JsParser.keep s = Ret false s
  end /\
  consume_keep_spec JsParser.keep s.
Proof.
  unfold consume_keep_spec, Parsers.keep, JsParser.keep.
  destruct (tokens s !! cursor s) as [l|]; simpl.
  - split; [split; reflexivity|].
    eexists _, _. split; [reflexivity|]. simpl.
    split; [reflexivity|]. split; [reflexivity|]. split.
    + apply lookup_ge_None. lia.
    + apply list_lookup_middle. reflexivity.
  - auto.
Qed.

(** The difference can be observed: renaming the entry that [keep] pushed
    renames the token of the token array in parsers.js, and leaves it alone
    in jsparser.js. *)
Example keep_shares_token :
  exists s1,
    Parsers.keep (fresh_state [Example.number "1" 0]) = Ret true s1 /\
    Parsers.is_ "renamed" (set_cursor 0 (rename (VRef 0) "renamed" s1)) =
      Ret true (set_cursor 0 (rename (VRef 0) "renamed" s1)) /\
    ast s1 = [VRef 0].
Proof. eexists. split; [reflexivity|]. split; reflexivity. Qed.

Example keep_copies_token :
  exists s1,
    JsParser.keep (fresh_state [Example.number "1" 0]) = Ret true s1 /\
    JsParser.is_ "renamed" (set_cursor 0 (rename (VRef 1) "renamed" s1)) =
      Ret false (set_cursor 0 (rename (VRef 1) "renamed" s1)) /\
    ast s1 = [VRef 1].
Proof. eexists. split; [reflexivity|]. split; reflexivity. Qed.

(** ** many *)

(** C4, at the failing input: the [many] of parsers.js over a parser that
    succeeds without touching the state never returns and raises nothing,
    whatever the number of iterations allowed. *)
Theorem many_never_returns (fuel : nat) (s : state) :
  Parsers.many fuel (fun s' => Ret true s') s = OutOfFuel.
Proof. induction fuel as [|fuel IH]; simpl; [reflexivity | exact IH]. Qed.

(** The [many] of jsparser.js has the guard: an invocation that succeeds
    and leaves the cursor where it was ends the repetition with an
    exception. *)
Lemma many_js_no_progress fuel P s s1 :
  P s = Ret true s1 -> cursor s1 = cursor s ->
  JsParser.many (S fuel) P s = Throw (ReferenceError "cursor") s1.
Proof.
  intros HP Heq. unfold JsParser.many. simpl. rewrite HP.
  rewrite bool_decide_eq_true_2 by exact Heq. reflexivity.
Qed.

(** With the guard the repetition ends: for a parser that, when it
    succeeds, leaves the token array alone and the cursor between its old
    value and the number of tokens, [length tokens - cursor + 1] evaluations
    of the loop condition are enough. *)
Lemma many_js_terminates P :
  (forall s s', P s = Ret true s' ->
                tokens s' = tokens s /\
                cursor s <= cursor s' <= length (tokens s')) ->
  (forall s, P s <> OutOfFuel) ->
  forall d s,
    cursor s <= length (tokens s) ->
    length (tokens s) - cursor s <= d ->
    JsParser.many (S d) P s <> OutOfFuel.
Proof.
  intros Hmono Htotal. unfold JsParser.many.
  induction d as [|d IH]; intros s Hle Hd; simpl;
    specialize (Htotal s); destruct (P s) as [[|] s'| |] eqn:HP;
    try discriminate; try congruence;
    destruct (Hmono s s' HP) as [Htok [Hlo Hhi]];
    case_bool_decide; try discriminate.
  - exfalso. rewrite Htok in Hhi. clear Hmono HP Htotal Htok. lia.
  - rewrite Htok in Hhi. apply IH; rewrite Htok; clear Hmono HP Htotal Htok IH; lia.
Qed.

Lemma many_js_fails fuel P s s1 :
  P s = Ret false s1 -> JsParser.many (S fuel) P s = Ret true s1.
Proof. intros HP. unfold JsParser.many. simpl. rewrite HP. reflexivity. Qed.

(** ** Tokenizers *)

Example lexer_new : JsLexer.new LexExample.defs = Ok LexExample.lx.
Proof. reflexivity. Qed.

Example lexer_compile :
  JsLexer.compile LexExample.E LexExample.lx = Ok LexExample.c.
Proof. reflexivity. Qed.

Example tokenize_sum :
  JsLexer.tokenize LexExample.E LexExample.lx "12 + 7" =
    Ok [Token (Some "number") "12" 0; Token (Some "plus") "+" 3;
        Token (Some "number") "7" 5].
Proof. reflexivity. Qed.

Example tokenize_unknown :
  JsLexer.tokenize LexExample.E LexExample.lx "12 @ 7" =
    Err (ThrowToken (Token (Some "unknown") "@" 3)).
Proof. reflexivity. Qed.

Lemma last_end_snoc ms m :
  last_end (ms ++ [m]) = index m + String.length (m0 m).
Proof. unfold last_end. rewrite last_snoc. reflexivity. Qed.

(** *** The scanning loop of stringlexer.js *)

Section StringLexerLoop.
Variables (E : engine) (lx : StringLexer.lexer) (c : StringLexer.compiled E)
  (str : string).

Lemma s_scan_app ms1 ms2 acc :
  StringLexer.scan E lx c str (ms1 ++ ms2) acc =
    try acc' <- StringLexer.scan E lx c str ms1 acc;
    StringLexer.scan E lx c str ms2 acc'.
Proof.
  revert acc. induction ms1 as [|m ms1 IH]; intros acc; simpl; [reflexivity|].
  destruct (StringLexer.step E lx c str acc m) as [acc'|e]; simpl;
    [apply IH | reflexivity].
Qed.

Lemma s_step_lastmatch acc m toks lm :
  StringLexer.step E lx c str acc m = Ok (toks, lm) ->
  lm = index m + String.length (m0 m).
Proof.
  destruct acc as [toks0 lm0]. unfold StringLexer.step.
  destruct (StringLexer.gap lx str toks0 lm0 (index m)) as [toks1|e]; simpl;
    [|discriminate].
  destruct (StringLexer.emit E lx c toks1 m); simpl; [|discriminate].
  intros [= _ <-]. reflexivity.
Qed.

Lemma s_scan_lastmatch ms toks lm :
  StringLexer.scan E lx c str ms ([], 0) = Ok (toks, lm) -> lm = last_end ms.
Proof.
  destruct (decide (ms = [])) as [->|Hne].
  - simpl. intros [= _ <-]. reflexivity.
  - destruct (exists_last Hne) as (ms' & m & ->).
    rewrite s_scan_app, last_end_snoc.
    destruct (StringLexer.scan E lx c str ms' ([], 0)) as [acc|e]; simpl;
      [|discriminate].
    destruct (StringLexer.step E lx c str acc m) as [[toks' lm']|e] eqn:Hs;
      simpl; [|discriminate].
    intros [= _ <-]. exact (s_step_lastmatch _ _ _ _ Hs).
Qed.

Lemma s_gap_extends toks lm upto toks' :
  StringLexer.gap lx str toks lm upto = Ok toks' ->
  exists more, toks' = toks ++ more.
Proof.
  unfold StringLexer.gap. case_bool_decide.
  - destruct (StringLexer.unknownhandler lx _) as [t|e]; simpl; [|discriminate].
    intros [= <-]. eauto.
  - intros [= <-]. exists []. symmetry. apply app_nil_r.
Qed.

Lemma s_emit_extends toks m toks' :
  StringLexer.emit E lx c toks m = Ok toks' -> exists more, toks' = toks ++ more.
Proof.
  unfold StringLexer.emit.
  destruct (negb _ || _); intros [= <-]; [eauto|].
  exists []. symmetry. apply app_nil_r.
Qed.

Lemma s_scan_extends ms toks lm toks' lm' :
  StringLexer.scan E lx c str ms (toks, lm) = Ok (toks', lm') ->
  exists more, toks' = toks ++ more.
Proof.
  revert toks lm. induction ms as [|m ms IH]; intros toks lm; simpl.
  - intros [= <- _]. exists []. symmetry. apply app_nil_r.
  - destruct (StringLexer.gap lx str toks lm (index m)) as [t1|e] eqn:Hg;
      simpl; [|discriminate].
    destruct (StringLexer.emit E lx c t1 m) as [t2|e] eqn:He; simpl;
      [|discriminate].
    intros Hs. apply IH in Hs as (more3 & ->).
    apply s_gap_extends in Hg as (more1 & ->).
    apply s_emit_extends in He as (more2 & ->).
    exists (more1 ++ more2 ++ more3). rewrite !app_assoc. reflexivity.
Qed.

Lemma s_trailing_extends toks lm out :
  StringLexer.trailing lx str (toks, lm) = Ok out ->
  exists more, out = toks ++ more.
Proof.
  unfold StringLexer.trailing. case_bool_decide.
  - destruct (StringLexer.unknownhandler lx _) as [t|e]; simpl; [|discriminate].
    intros [= <-]. eauto.
  - intros [= <-]. exists []. symmetry. apply app_nil_r.
Qed.

Lemma s_gap_handled ms1 m ms2 toks lm :
  matchAll E (StringLexer.re E c) str = ms1 ++ m :: ms2 ->
  StringLexer.scan E lx c str ms1 ([], 0) = Ok (toks, lm) ->
  lm < index m ->
  unknown_span_handled (StringLexer.unknownhandler lx)
    (StringLexer.tokenizer E lx c str) toks (slice str lm (index m)) lm.
Proof.
  intros Hms Hscan Hlt. unfold StringLexer.tokenizer.
  rewrite Hms, s_scan_app, Hscan. simpl.
  unfold StringLexer.gap. rewrite bool_decide_eq_true_2 by exact Hlt.
  split.
  - intros e ->. reflexivity.
  - intros t out -> . simpl.
    destruct (StringLexer.emit E lx c (toks ++ [t]) m) as [t2|e] eqn:He;
      simpl; [|discriminate].
    destruct (StringLexer.scan E lx c str ms2 _) as [[t3 lm3]|e] eqn:Hs;
      simpl; [|discriminate].
    intros Ht.
    apply s_emit_extends in He as (more1 & ->).
    apply s_scan_extends in Hs as (more2 & ->).
    apply s_trailing_extends in Ht as (more3 & ->).
    exists (more1 ++ more2 ++ more3).
    rewrite <- !app_assoc. reflexivity.
Qed.

Lemma s_trailing_handled toks lm :
  StringLexer.scan E lx c str (matchAll E (StringLexer.re E c) str) ([], 0)
    = Ok (toks, lm) ->
  lm < String.length str ->
  unknown_span_handled (StringLexer.unknownhandler lx)
    (StringLexer.tokenizer E lx c str) toks (slice_end str lm) lm.
Proof.
  intros Hscan Hlt. unfold StringLexer.tokenizer. rewrite Hscan. simpl.
  rewrite bool_decide_eq_true_2 by exact Hlt.
  split.
  - intros e ->. reflexivity.
  - intros t out ->. simpl. intros [= <-]. exists []. reflexivity.
Qed.

End StringLexerLoop.

(** *** The scanning loop of jsparser.js *)

Section JsLexerLoop.
Variables (E : engine) (lx : JsLexer.lexer) (c : JsLexer.compiled E)
  (str : string).

Lemma j_scan_app ms1 ms2 acc :
  JsLexer.scan E lx c str (ms1 ++ ms2) acc =
    try acc' <- JsLexer.scan E lx c str ms1 acc;
    JsLexer.scan E lx c str ms2 acc'.
Proof.
  revert acc. induction ms1 as [|m ms1 IH]; intros acc; simpl; [reflexivity|].
  destruct (JsLexer.step E lx c str acc m) as [acc'|e]; simpl;
    [apply IH | reflexivity].
Qed.

Lemma j_step_lastmatch acc m toks lm :
  JsLexer.step E lx c str acc m = Ok (toks, lm) ->
  lm = index m + String.length (m0 m).
Proof.
  destruct acc as [toks0 lm0]. unfold JsLexer.step.
  destruct (JsLexer.gap lx str toks0 lm0 (index m)) as [toks1|e]; simpl;
    [|discriminate].
  destruct (JsLexer.emit E lx c toks1 m); simpl; [|discriminate].
  intros [= _ <-]. reflexivity.
Qed.

Lemma j_scan_lastmatch ms toks lm :
  JsLexer.scan E lx c str ms ([], 0) = Ok (toks, lm) -> lm = last_end ms.
Proof.
  destruct (decide (ms = [])) as [->|Hne].
  - simpl. intros [= _ <-]. reflexivity.
  - destruct (exists_last Hne) as (ms' & m & ->).
    rewrite j_scan_app, last_end_snoc.
    destruct (JsLexer.scan E lx c str ms' ([], 0)) as [acc|e]; simpl;
      [|discriminate].
    destruct (JsLexer.step E lx c str acc m) as [[toks' lm']|e] eqn:Hs;
      simpl; [|discriminate].
    intros [= _ <-]. exact (j_step_lastmatch _ _ _ _ Hs).
Qed.

Lemma j_gap_extends toks lm upto toks' :
  JsLexer.gap lx str toks lm upto = Ok toks' ->
  exists more, toks' = toks ++ more.
Proof.
  unfold JsLexer.gap. case_bool_decide.
  - destruct (JsLexer.unknownhandler lx _) as [t|e]; simpl; [|discriminate].
    intros [= <-]. eauto.
  - intros [= <-]. exists []. symmetry. apply app_nil_r.
Qed.

Lemma j_emit_extends toks m toks' :
  JsLexer.emit E lx c toks m = Ok toks' -> exists more, toks' = toks ++ more.
Proof.
  unfold JsLexer.emit.
  destruct (negb _ || _).
  - case_bool_decide; [discriminate|]. intros [= <-]. eauto.
  - intros [= <-]. exists []. symmetry. apply app_nil_r.
Qed.

Lemma j_scan_extends ms toks lm toks' lm' :
  JsLexer.scan E lx c str ms (toks, lm) = Ok (toks', lm') ->
  exists more, toks' = toks ++ more.
Proof.
  revert toks lm. induction ms as [|m ms IH]; intros toks lm; simpl.
  - intros [= <- _]. exists []. symmetry. apply app_nil_r.
  - destruct (JsLexer.gap lx str toks lm (index m)) as [t1|e] eqn:Hg;
      simpl; [|discriminate].
    destruct (JsLexer.emit E lx c t1 m) as [t2|e] eqn:He; simpl;
      [|discriminate].
    intros Hs. apply IH in Hs as (more3 & ->).
    apply j_gap_extends in Hg as (more1 & ->).
    apply j_emit_extends in He as (more2 & ->).
    exists (more1 ++ more2 ++ more3). rewrite !app_assoc. reflexivity.
Qed.

Lemma j_trailing_extends toks lm out :
  JsLexer.trailing lx str (toks, lm) = Ok out ->
  exists more, out = toks ++ more.
Proof.
  unfold JsLexer.trailing. case_bool_decide.
  - destruct (JsLexer.unknownhandler lx _) as [t|e]; simpl; [|discriminate].
    intros [= <-]. eauto.
  - intros [= <-]. exists []. symmetry. apply app_nil_r.
Qed.

Lemma j_gap_handled ms1 m ms2 toks lm :
  matchAll E (JsLexer.re E c) str = ms1 ++ m :: ms2 ->
  JsLexer.scan E lx c str ms1 ([], 0) = Ok (toks, lm) ->
  lm < index m ->
  unknown_span_handled (JsLexer.unknownhandler lx)
    (JsLexer.tokenizer E lx c str) toks (slice str lm (index m)) lm.
Proof.
  intros Hms Hscan Hlt. unfold JsLexer.tokenizer.
  rewrite Hms, j_scan_app, Hscan. simpl.
  unfold JsLexer.gap. rewrite bool_decide_eq_true_2 by exact Hlt.
  split.
  - intros e ->. reflexivity.
  - intros t out -> . simpl.
    destruct (JsLexer.emit E lx c (toks ++ [t]) m) as [t2|e] eqn:He;
      simpl; [|discriminate].
    destruct (JsLexer.scan E lx c str ms2 _) as [[t3 lm3]|e] eqn:Hs;
      simpl; [|discriminate].
    intros Ht.
    apply j_emit_extends in He as (more1 & ->).
    apply j_scan_extends in Hs as (more2 & ->).
    apply j_trailing_extends in Ht as (more3 & ->).
    exists (more1 ++ more2 ++ more3).
    rewrite <- !app_assoc. reflexivity.
Qed.

Lemma j_trailing_handled toks lm :
  JsLexer.scan E lx c str (matchAll E (JsLexer.re E c) str) ([], 0)
    = Ok (toks, lm) ->
  lm < String.length str ->
  unknown_span_handled (JsLexer.unknownhandler lx)
    (JsLexer.tokenizer E lx c str) toks (slice_end str lm) lm.
Proof.
  intros Hscan Hlt. unfold JsLexer.tokenizer. rewrite Hscan. simpl.
  rewrite bool_decide_eq_true_2 by exact Hlt.
  split.
  - intros e ->. reflexivity.
  - intros t out ->. simpl. intros [= <-]. exists []. reflexivity.
Qed.

(** A kept match with an empty text ends tokenizing with the error, when
    the matches before it and the span before it were handled without an
    exception. *)
Lemma j_zero_length ms1 m ms2 toks lm toks1 :
  matchAll E (JsLexer.re E c) str = ms1 ++ m :: ms2 ->
  JsLexer.scan E lx c str ms1 ([], 0) = Ok (toks, lm) ->
  JsLexer.gap lx str toks lm (index m) = Ok toks1 ->
  String.length (m0 m) = 0 ->
  JsLexer.match_name E c m <> Some "whitespace" \/ JsLexer.keepws lx = true ->
  JsLexer.tokenizer E lx c str =
    Err (ZeroLengthToken (JsLexer.match_name E c m) (index m)).
Proof.
  intros Hms Hscan Hgap Hz Hkept. unfold JsLexer.tokenizer.
  rewrite Hms, j_scan_app, Hscan. simpl. rewrite Hgap. simpl.
  unfold JsLexer.emit.
  replace (negb (bool_decide (JsLexer.match_name E c m = Some "whitespace"))
           || JsLexer.keepws lx) with true.
  - rewrite bool_decide_eq_true_2 by exact Hz. reflexivity.
  - symmetry. apply orb_true_iff. destruct Hkept as [Hn| ->]; [left|right; reflexivity].
    apply negb_true_iff, bool_decide_eq_false_2, Hn.
Qed.

(** Tokenizing never returns a token array when the scanner has a kept
    match with an empty text. *)
Lemma j_zero_length_no_tokens m :
  m ∈ matchAll E (JsLexer.re E c) str ->
  String.length (m0 m) = 0 ->
  JsLexer.match_name E c m <> Some "whitespace" \/ JsLexer.keepws lx = true ->
  exists e, JsLexer.tokenizer E lx c str = Err e.
Proof.
  intros Hin Hz Hkept.
  apply list_elem_of_split in Hin as (ms1 & ms2 & Hms).
  destruct (JsLexer.scan E lx c str ms1 ([], 0)) as [[toks lm]|e] eqn:Hscan.
  - destruct (JsLexer.gap lx str toks lm (index m)) as [toks1|e] eqn:Hgap.
    + eexists. exact (j_zero_length _ _ _ _ _ _ Hms Hscan Hgap Hz Hkept).
    + exists e. unfold JsLexer.tokenizer.
      rewrite Hms, j_scan_app, Hscan. simpl. rewrite Hgap. reflexivity.
  - exists e. unfold JsLexer.tokenizer.
    rewrite Hms, j_scan_app, Hscan. reflexivity.
Qed.

End JsLexerLoop.

(** C7: in both tokenizers, when the next match starts after the end of
    the previous match (position 0 before the first match), the text in
    between is given to the unknown-span handler as a token named "unknown"
    with its offset, and so is the text that trails the last match; what
    the handler returns is appended to the output, and what it throws ends
    tokenizing; the default handler throws the unknown token. *)
Theorem unknown_spans (E : engine) (str : string) :
  (forall (lx : JsLexer.lexer) (c : JsLexer.compiled E),
     (forall ms1 m ms2 toks lm,
        matchAll E (JsLexer.re E c) str = ms1 ++ m :: ms2 ->
        JsLexer.scan E lx c str ms1 ([], 0) = Ok (toks, lm) ->
        lm = last_end ms1 /\
        (lm < index m ->
         unknown_span_handled (JsLexer.unknownhandler lx)
           (JsLexer.tokenizer E lx c str) toks (slice str lm (index m)) lm)) /\
     (forall toks lm,
        JsLexer.scan E lx c str (matchAll E (JsLexer.re E c) str) ([], 0)
          = Ok (toks, lm) ->
        lm = last_end (matchAll E (JsLexer.re E c) str) /\
        (lm < String.length str ->
         unknown_span_handled (JsLexer.unknownhandler lx)
           (JsLexer.tokenizer E lx c str) toks (slice_end str lm) lm))) /\
  (forall (lx : StringLexer.lexer) (c : StringLexer.compiled E),
     (forall ms1 m ms2 toks lm,
        matchAll E (StringLexer.re E c) str = ms1 ++ m :: ms2 ->
        StringLexer.scan E lx c str ms1 ([], 0) = Ok (toks, lm) ->
        lm = last_end ms1 /\
        (lm < index m ->
         unknown_span_handled (StringLexer.unknownhandler lx)
           (StringLexer.tokenizer E lx c str) toks
           (slice str lm (index m)) lm)) /\
     (forall toks lm,
        StringLexer.scan E lx c str (matchAll E (StringLexer.re E c) str)
          ([], 0) = Ok (toks, lm) ->
        lm = last_end (matchAll E (StringLexer.re E c) str) /\
        (lm < String.length str ->
         unknown_span_handled (StringLexer.unknownhandler lx)
           (StringLexer.tokenizer E lx c str) toks (slice_end str lm) lm))) /\
  (forall ds lx t,
     JsLexer.new ds = Ok lx ->
     JsLexer.unknownhandler lx t = Err (ThrowToken t)) /\
  (forall ws t,
     StringLexer.unknownhandler (StringLexer.new ws) t = Err (ThrowToken t)).
Proof.
  split; [|split; [|split]].
  - intros lx c. split.
    + intros ms1 m ms2 toks lm Hms Hscan. split.
      * exact (j_scan_lastmatch E lx c str _ _ _ Hscan).
      * exact (j_gap_handled E lx c str _ _ _ _ _ Hms Hscan).
    + intros toks lm Hscan. split.
      * exact (j_scan_lastmatch E lx c str _ _ _ Hscan).
      * exact (j_trailing_handled E lx c str _ _ Hscan).
  - intros lx c. split.
    + intros ms1 m ms2 toks lm Hms Hscan. split.
      * exact (s_scan_lastmatch E lx c str _ _ _ Hscan).
      * exact (s_gap_handled E lx c str _ _ _ _ _ Hms Hscan).
    + intros toks lm Hscan. split.
      * exact (s_scan_lastmatch E lx c str _ _ _ Hscan).
      * exact (s_trailing_handled E lx c str _ _ Hscan).
  - intros ds lx t. unfold JsLexer.new.
    destruct (JsLexer.makedefs ds) as [defs|e]; simpl; [|discriminate].
    destruct (_ =? _)%Z.
    + unfold JsLexer.define. simpl. intros [= <-]. reflexivity.
    + intros [= <-]. reflexivity.
  - intros [src|] t; reflexivity.
Qed.

Lemma unknown_spans_witness :
  JsLexer.tokenizer LexExample.E LexExample.lx LexExample.c "12 @ 7" =
    Err (ThrowToken (Token (Some "unknown") "@" 3)).
Proof.
  apply (proj1 (proj2 (proj1 (proj1 (unknown_spans LexExample.E "12 @ 7")
                                LexExample.lx LexExample.c)
                         [LexExample.m_12; LexExample.m_sp 2]
                         (LexExample.m_sp 4) [LexExample.m_7]
                         [Token (Some "number") "12" 0] 3
                         eq_refl eq_refl)
                  ltac:(simpl; lia))).
  reflexivity.
Defined.

(** C6, at the failing input: the tokenizer of stringlexer.js, given the
    definition [num = /[0-9]*/] and the input [7], returns a token array
    that ends in a token with an empty text. *)
Theorem stringlexer_zero_length_token :
  StringLexer.tokenize LexExample.E_star LexExample.lx_star "7" =
    Ok [Token (Some "num") "7" 0; Token None "" 1].
Proof. reflexivity. Qed.

(** The tokenizer of jsparser.js rejects the same scan. *)
Example jslexer_zero_length_error :
  exists lx,
    JsLexer.new LexExample.defs_star = Ok lx /\
    JsLexer.tokenize LexExample.E_star lx "7" = Err (ZeroLengthToken None 1).
Proof. eexists. split; reflexivity. Qed.

(** ** The definitions of the variadic Lexer *)

Lemma findIndex_from_found {A} (f : A -> bool) i l x :
  x ∈ l -> f x = true -> (0 <= findIndex_from f i l)%Z.
Proof.
  intros Hin Hf. revert i.
  induction Hin as [x l|x y l Hin IH]; intros i; simpl.
  - rewrite Hf. lia.
  - destruct (f y); [lia | apply IH, Hf].
Qed.

Lemma array_get_elem {A} (l : list A) i x : array_get l i = Some x -> x ∈ l.
Proof.
  unfold array_get. destruct (i <? 0)%Z; [discriminate|].
  apply list_elem_of_lookup_2.
Qed.

Lemma makedefs_elem ds defs d :
  JsLexer.makedefs ds = Ok defs -> d ∈ ds ->
  exists x, JsLexer.makedef d = Ok x /\ x ∈ defs.
Proof.
  intros Hm Hin. revert defs Hm.
  induction Hin as [d ds|d d' ds Hin IH]; intros defs; simpl.
  - destruct (JsLexer.makedef d) as [x|e]; simpl; [|discriminate].
    destruct (JsLexer.makedefs ds) as [xs|e]; simpl; [|discriminate].
    intros [= <-]. exists x. split; [reflexivity | apply list_elem_of_here].
  - destruct (JsLexer.makedef d') as [x'|e]; simpl; [|discriminate].
    destruct (JsLexer.makedefs ds) as [xs|e]; simpl; [|discriminate].
    intros [= <-]. destruct (IH xs eq_refl) as (x & Hx & Hin').
    exists x. split; [exact Hx | apply list_elem_of_further, Hin'].
Qed.

Lemma makedef_falsy k v x :
  JsLexer.makedef (JsLexer.DObject k v) = Ok x ->
  JsLexer.pat_truthy v = false -> x = (k, v).
Proof.
  destruct v as [s|source|b| |]; simpl; try discriminate;
    intros [= <-] _; reflexivity.
Qed.

Lemma new_definitions ds lx :
  JsLexer.new ds = Ok lx ->
  exists defs,
    JsLexer.makedefs ds = Ok defs /\
    ((JsLexer.findtoken "whitespace"
        (JsLexer.Lexer defs false JsLexer.default_unknownhandler) <> -1)%Z /\
     JsLexer.definitions lx = defs
     \/
     JsLexer.findtoken "whitespace"
       (JsLexer.Lexer defs false JsLexer.default_unknownhandler) = (-1)%Z /\
     JsLexer.definitions lx = defs ++ [("whitespace", JsLexer.PString "[ \r\n]+")]).
Proof.
  unfold JsLexer.new.
  destruct (JsLexer.makedefs ds) as [defs|e]; simpl; [|discriminate].
  intros H. exists defs. split; [reflexivity|].
  destruct (_ =? _)%Z eqn:Hf.
  - right. split; [lia|].
    unfold JsLexer.define in H. simpl in H. injection H as <-. reflexivity.
  - left. split; [lia|]. injection H as <-. reflexivity.
Qed.

Lemma collect_filter defs :
  JsLexer.collect defs =
    ((fun d => "(" +:+ JsLexer.pat_to_string d.2 +:+ ")")
       <$> List.filter (fun d => JsLexer.pat_truthy d.2) defs,
     fst <$> List.filter (fun d => JsLexer.pat_truthy d.2) defs).
Proof.
  induction defs as [|[k v] defs IH]; simpl; [reflexivity|].
  rewrite IH. destruct (JsLexer.pat_truthy v); reflexivity.
Qed.

Lemma compile_tokennames E lx c :
  JsLexer.compile E lx = Ok c ->
  JsLexer.tokennames E c =
    fst <$> List.filter (fun d => JsLexer.pat_truthy d.2) (JsLexer.definitions lx).
Proof.
  unfold JsLexer.compile. rewrite collect_filter.
  destruct (new_RegExp E _); [|discriminate]. intros [= <-]. reflexivity.
Qed.

Lemma match_name_defined E lx c m k :
  JsLexer.compile E lx = Ok c ->
  JsLexer.match_name E c m = Some k ->
  exists v, (k, v) ∈ JsLexer.definitions lx /\ JsLexer.pat_truthy v = true.
Proof.
  intros Hc Hm. unfold JsLexer.match_name in Hm.
  apply array_get_elem in Hm. rewrite (compile_tokennames _ _ _ Hc) in Hm.
  apply list_elem_of_fmap in Hm as ([k' v] & -> & Hin).
  apply list_elem_of_In, filter_In in Hin as [Hin Ht].
  exists v. split; [apply list_elem_of_In, Hin | exact Ht].
Qed.

Section NoSuchName.
Variables (E : engine) (lx : JsLexer.lexer) (c : JsLexer.compiled E)
  (str k : string).
Hypothesis Hhandler :
  forall u t, JsLexer.unknownhandler lx u = Ok t -> name t <> Some k.
Hypothesis Hmatch : forall m, JsLexer.match_name E c m <> Some k.

Lemma clean_snoc toks t :
  none_named k toks -> name t <> Some k -> none_named k (toks ++ [t]).
Proof.
  intros Hc Ht t' Hin. apply elem_of_app in Hin as [Hin|Hin].
  - apply Hc, Hin.
  - apply list_elem_of_singleton in Hin as ->. exact Ht.
Qed.

Lemma gap_clean toks lm upto toks' :
  none_named k toks -> JsLexer.gap lx str toks lm upto = Ok toks' ->
  none_named k toks'.
Proof.
  intros Hc. unfold JsLexer.gap. case_bool_decide.
  - destruct (JsLexer.unknownhandler lx _) as [t|e] eqn:Hh; simpl;
      [|discriminate].
    intros [= <-]. apply clean_snoc; [exact Hc | exact (Hhandler _ _ Hh)].
  - intros [= <-]. exact Hc.
Qed.

Lemma emit_clean toks m toks' :
  none_named k toks -> JsLexer.emit E lx c toks m = Ok toks' ->
  none_named k toks'.
Proof.
  intros Hc. unfold JsLexer.emit. destruct (negb _ || _).
  - case_bool_decide; [discriminate|]. intros [= <-].
    apply clean_snoc; [exact Hc | apply Hmatch].
  - intros [= <-]. exact Hc.
Qed.

Lemma scan_clean ms toks lm toks' lm' :
  none_named k toks ->
  JsLexer.scan E lx c str ms (toks, lm) = Ok (toks', lm') ->
  none_named k toks'.
Proof.
  revert toks lm. induction ms as [|m ms IH]; intros toks lm Hc; simpl.
  - intros [= <- _]. exact Hc.
  - destruct (JsLexer.gap lx str toks lm (index m)) as [t1|e] eqn:Hg;
      simpl; [|discriminate].
    destruct (JsLexer.emit E lx c t1 m) as [t2|e] eqn:He; simpl;
      [|discriminate].
    apply IH. exact (emit_clean _ _ _ (gap_clean _ _ _ _ Hc Hg) He).
Qed.

Lemma tokenizer_clean out :
  JsLexer.tokenizer E lx c str = Ok out -> none_named k out.
Proof.
  unfold JsLexer.tokenizer.
  destruct (JsLexer.scan E lx c str _ ([], 0)) as [[toks lm]|e] eqn:Hs;
    simpl; [|discriminate].
  assert (Hc : none_named k toks).
  { apply (scan_clean _ _ _ _ _
             (fun t (H : t ∈ []) => match not_elem_of_nil t H with end) Hs). }
  case_bool_decide.
  - destruct (JsLexer.unknownhandler lx _) as [t|e] eqn:Hh; simpl;
      [|discriminate].
    intros [= <-]. apply clean_snoc; [exact Hc | exact (Hhandler _ _ Hh)].
  - intros [= <-]. exact Hc.
Qed.

End NoSuchName.

(** C10, as the claim states it, fails: with the definitions
    [{a: false}, {a: 'x'}] the name [a] has a definition with a falsy
    value, and the scanner emits a token named [a] for the input [x]. *)
Lemma falsy_name_emitted_counterexample :
  ~ (forall E ds lx k v,
       JsLexer.new ds = Ok lx ->
       JsLexer.DObject k v ∈ ds ->
       JsLexer.pat_truthy v = false ->
       never_emits E lx k).
Proof.
  intros H.
  specialize (H LexExample.E_twice LexExample.defs_twice _ "a"
                (JsLexer.PBool false) eq_refl
                (list_elem_of_here _ _) eq_refl).
  unfold never_emits in H.
  specialize (H _ "x" [Token (Some "a") "x" 0] eq_refl eq_refl
                (Token (Some "a") "x" 0) (list_elem_of_here _ _)).
  apply H. reflexivity.
Qed.

(** C10, amended: in a Lexer that the constructor has returned, a
    definition with a falsy value is one of the definitions and
    [findtoken] finds its name, so [{whitespace: false}] keeps the default
    whitespace pattern from being added; [compile] takes the sources and
    the token names from the definitions with a truthy value only; and when
    every definition of the name has a falsy value, no token that the
    scanner makes for a match has that name, so the output has no token of
    that name unless the unknown-span handler returns one. *)
Theorem falsy_definition (ds : list JsLexer.definition) (lx : JsLexer.lexer)
    (k : string) (v : JsLexer.patval) :
  JsLexer.new ds = Ok lx ->
  JsLexer.DObject k v ∈ ds ->
  JsLexer.pat_truthy v = false ->
  (k, v) ∈ JsLexer.definitions lx /\
  JsLexer.findtoken k lx <> (-1)%Z /\
  (k = "whitespace" -> JsLexer.makedefs ds = Ok (JsLexer.definitions lx)) /\
  JsLexer.collect (JsLexer.definitions lx) =
    ((fun d => "(" +:+ JsLexer.pat_to_string d.2 +:+ ")")
       <$> List.filter (fun d => JsLexer.pat_truthy d.2) (JsLexer.definitions lx),
     fst <$> List.filter (fun d => JsLexer.pat_truthy d.2)
               (JsLexer.definitions lx)) /\
  (forall E lx',
     JsLexer.definitions lx' = JsLexer.definitions lx ->
     (forall v', (k, v') ∈ JsLexer.definitions lx ->
                 JsLexer.pat_truthy v' = false) ->
     (forall c m, JsLexer.compile E lx' = Ok c ->
                  JsLexer.match_name E c m <> Some k) /\
     ((forall u t, JsLexer.unknownhandler lx' u = Ok t -> name t <> Some k) ->
      never_emits E lx' k)).
Proof.
  intros Hnew Hin Hfalsy.
  destruct (new_definitions _ _ Hnew) as (defs & Hdefs & Hcase).
  destruct (makedefs_elem _ _ _ Hdefs Hin) as (x & Hx & Hxin).
  apply makedef_falsy in Hx; [subst x | exact Hfalsy].
  assert (Hfound : forall lx0, (k, v) ∈ JsLexer.definitions lx0 ->
                               JsLexer.findtoken k lx0 <> (-1)%Z).
  { intros lx0 Hin0. unfold JsLexer.findtoken, findIndex.
    pose proof (findIndex_from_found
                  (fun d : string * JsLexer.patval => String.eqb d.1 k)
                  0 _ _ Hin0 (String.eqb_refl k)).
    lia. }
  assert (Hmem : (k, v) ∈ JsLexer.definitions lx).
  { destruct Hcase as [[_ ->] | [_ ->]]; [exact Hxin|].
    apply elem_of_app. left. exact Hxin. }
  split; [exact Hmem|]. split; [exact (Hfound lx Hmem)|].
  split; [|split].
  - intros ->. destruct Hcase as [[_ ->] | [Hnone _]]; [exact Hdefs|].
    exfalso. revert Hnone. apply Hfound. exact Hxin.
  - apply collect_filter.
  - intros E lx' Hsame Hall.
    assert (Hm : forall c m, JsLexer.compile E lx' = Ok c ->
                             JsLexer.match_name E c m <> Some k).
    { intros c m Hc Hname.
      destruct (match_name_defined _ _ _ _ _ Hc Hname) as (v' & Hin' & Ht).
      rewrite Hsame in Hin'. rewrite (Hall _ Hin') in Ht. discriminate. }
    split; [exact Hm|].
    intros Hh c str out Hc Htok.
    exact (tokenizer_clean E lx' c str k Hh (fun m => Hm c m Hc) out Htok).
Qed.

Lemma falsy_definition_witness :
  JsLexer.findtoken "whitespace"
    (JsLexer.Lexer [("whitespace", JsLexer.PBool false)] false
       JsLexer.default_unknownhandler) <> (-1)%Z /\
  JsLexer.makedefs [JsLexer.DObject "whitespace" (JsLexer.PBool false)] =
    Ok [("whitespace", JsLexer.PBool false)].
Proof.
  destruct (falsy_definition
              [JsLexer.DObject "whitespace" (JsLexer.PBool false)]
              (JsLexer.Lexer [("whitespace", JsLexer.PBool false)] false
                 JsLexer.default_unknownhandler)
              "whitespace" (JsLexer.PBool false)
              eq_refl (list_elem_of_here _ _) eq_refl)
    as (_ & Hfind & Hws & _).
  split; [exact Hfind | exact (Hws eq_refl)].
Defined.

(** The constructor throws for a value that is [null], before any
    definition is stored. *)
Example lexer_new_null :
  JsLexer.new [JsLexer.DObject "whitespace" JsLexer.PNull] =
    Err (TypeError "constructor").
Proof. reflexivity. Qed.

(** * Further properties of the parsers *)

(** ** The primitives *)

Ltac prim_cases s :=
  unfold Parsers.match_, Parsers.not_, Parsers.eat, JsParser.match_,
    JsParser.not_, JsParser.eat, seq, alt, bind, ret,
    Parsers.keep, Parsers.skip, Parsers.is_, Parsers.END,
    JsParser.keep, JsParser.skip, JsParser.is_, JsParser.END;
  simpl;
  destruct (tokens s !! cursor s) as [?l|] eqn:?Htok; simpl;
  try (destruct (bool_decide _) eqn:?Hname; simpl);
  try match goal with
      | H : tokens s !! cursor s = _ |- _ => rewrite ?H; simpl
      end.

(** X1: a primitive that reports failure has left the state as it was
    ([keep], [skip], [is], [match], [not], [eat] and [END] of both
    files). *)
Theorem primitives_fail_unchanged (nm : string) (P : parser) (s s' : state) :
  P ∈ primitives nm -> P s = Ret false s' -> s' = s.
Proof.
  intros HP. unfold primitives in HP.
  repeat (apply elem_of_cons in HP as [-> | HP];
          [prim_cases s; congruence|]).
  apply elem_of_nil in HP as [].
Qed.

Lemma primitives_fail_unchanged_witness :
  State [0] 0 [] None [OToken (Example.number "1" 0)] =
    fresh_state [Example.number "1" 0].
Proof.
  apply (primitives_fail_unchanged "plus" (JsParser.match_ "plus")
           (fresh_state [Example.number "1" 0])).
  - unfold primitives. do 10 apply list_elem_of_further. apply list_elem_of_here.
  - reflexivity.
Defined.

(** X2: at the end of the input, also with the cursor past it, [END]
    succeeds and every primitive that consumes a token fails, [not(name)]
    included; before the end [END] fails and [keep] and [skip] succeed. *)
Theorem end_or_token (nm : string) (s : state) :
  (length (tokens s) <= cursor s ->
   Parsers.END s = Ret true s /\ JsParser.END s = Ret true s /\
   forall P, P ∈ consumers nm -> P s = Ret false s) /\
  (cursor s < length (tokens s) ->
   Parsers.END s = Ret false s /\ JsParser.END s = Ret false s /\
   (exists s', Parsers.keep s = Ret true s') /\
   (exists s', JsParser.keep s = Ret true s') /\
   (exists s', Parsers.skip s = Ret true s')).
Proof.
  split.
  - intros Hend.
    assert (Hnone : tokens s !! cursor s = None) by (apply lookup_ge_None; lia).
    split; [|split].
    + unfold Parsers.END. rewrite bool_decide_eq_true_2 by lia. reflexivity.
    + unfold JsParser.END. rewrite bool_decide_eq_true_2 by lia. reflexivity.
    + intros P HP. unfold consumers in HP.
      repeat (apply elem_of_cons in HP as [-> | HP];
              [prim_cases s; congruence|]).
      apply elem_of_nil in HP as [].
  - intros Hlt.
    destruct (lookup_lt_is_Some_2 (tokens s) (cursor s) Hlt) as [l Hl].
    split; [|split; [|split; [|split]]].
    + unfold Parsers.END. rewrite bool_decide_eq_false_2 by lia. reflexivity.
    + unfold JsParser.END. rewrite bool_decide_eq_false_2 by lia. reflexivity.
    + unfold Parsers.keep. rewrite Hl. eauto.
    + unfold JsParser.keep. rewrite Hl. simpl. eauto.
    + unfold Parsers.skip. rewrite Hl. eauto.
Qed.

Lemma end_or_token_witness :
  JsParser.not_ "plus" (State [0] 1 [] None [OToken (Example.number "1" 0)]) =
    Ret false (State [0] 1 [] None [OToken (Example.number "1" 0)]).
Proof.
  apply (proj1 (end_or_token "plus"
                  (State [0] 1 [] None [OToken (Example.number "1" 0)]))).
  - simpl. lia.
  - unfold consumers. do 8 apply list_elem_of_further. apply list_elem_of_here.
Defined.

(** X3: on a token, [match(name)] and [not(name)] are complementary: when
    the token has the name, [match] is [keep], [eat] is [skip] and [not]
    fails without a change; when it has another name, [not] is [keep] and
    [match] and [eat] fail without a change. *)
Theorem match_not_complementary (nm : string) (s : state) (l : loc) :
  tokens s !! cursor s = Some l ->
  (obj_name (heap s !!! l) = Some nm ->
   Parsers.match_ nm s = Parsers.keep s /\
   JsParser.match_ nm s = JsParser.keep s /\
   Parsers.eat nm s = Parsers.skip s /\
   JsParser.eat nm s = JsParser.skip s /\
   Parsers.not_ nm s = Ret false s /\
   JsParser.not_ nm s = Ret false s) /\
  (obj_name (heap s !!! l) <> Some nm ->
   Parsers.not_ nm s = Parsers.keep s /\
   JsParser.not_ nm s = JsParser.keep s /\
   Parsers.match_ nm s = Ret false s /\
   JsParser.match_ nm s = Ret false s /\
   Parsers.eat nm s = Ret false s /\
   JsParser.eat nm s = Ret false s).
Proof.
  intros Hl. split; intros Hname.
  - unfold Parsers.match_, Parsers.not_, Parsers.eat, JsParser.match_,
      JsParser.not_, JsParser.eat, seq, bind, ret, Parsers.is_, JsParser.is_.
    rewrite Hl, bool_decide_eq_true_2 by exact Hname. auto 10.
  - unfold Parsers.match_, Parsers.not_, Parsers.eat, JsParser.match_,
      JsParser.not_, JsParser.eat, seq, bind, ret, Parsers.is_, JsParser.is_.
    rewrite Hl, bool_decide_eq_false_2 by exact Hname. auto 10.
Qed.

Lemma match_not_complementary_witness :
  JsParser.not_ "plus" (fresh_state [Example.number "1" 0]) =
    JsParser.keep (fresh_state [Example.number "1" 0]).
Proof.
  apply (proj2 (match_not_complementary "plus"
                  (fresh_state [Example.number "1" 0]) 0 eq_refl)).
  simpl. discriminate.
Defined.

(** ** What every rule of a grammar keeps *)

Lemma keeps_refl s : keeps s s.
Proof. split; auto. Qed.

Lemma keeps_trans s1 s2 s3 : keeps s1 s2 -> keeps s2 s3 -> keeps s1 s3.
Proof.
  intros [T1 C1 B1 A1 H1 K1] [T2 C2 B2 A2 H2 K2]. split.
  - congruence.
  - lia.
  - auto.
  - etrans; eassumption.
  - etrans; eassumption.
  - destruct K2 as [K2|(c & K2 & Hc)].
    + rewrite K2. destruct K1 as [K1|(c & K1 & Hc)]; [left; exact K1|].
      right. exists c. auto.
    + right. exists c. split; [exact K2 | lia].
Qed.

Lemma set_length_prefix a b : a `prefix_of` b -> set_length (length a) b = a.
Proof. intros [k ->]. apply set_length_app. Qed.

Lemma keeps_restore s s1 st :
  keeps s s1 ->
  final_state (Parsers.restore (Parsers.save s) s1) = Some st ->
  keeps s st.
Proof.
  intros Hk. unfold Parsers.restore.
  destruct (cut_at_or_after _ s1); simpl; intros [= <-]; [exact Hk|].
  destruct Hk as [T C B A H K]. split; simpl; auto.
  - rewrite T. auto.
  - rewrite (set_length_prefix _ _ A). reflexivity.
Qed.

Lemma run_actions_pure acts v s :
  Forall pure_action acts -> exists r, Parsers.run_actions acts v s = Ret r s.
Proof.
  intros Hp. revert v. induction Hp as [|act acts Hact _ IH]; intros v; simpl.
  - eexists. reflexivity.
  - unfold bind. destruct (Hact v s) as [v' ->].
    destruct (truthy v'); [apply IH | eexists; reflexivity].
Qed.

Lemma keeps_node_made nm s s1 :
  keeps s s1 -> keeps s (node_made nm (Parsers.save s) s1).
Proof.
  intros [T C B A H K]. split; simpl; auto.
  - rewrite (set_length_prefix _ _ A). reflexivity.
  - etrans; [exact H|]. apply prefix_app_r. reflexivity.
Qed.

Lemma keeps_push v s s1 : keeps s s1 -> keeps s (push v s1).
Proof.
  intros [T C B A H K]. split; simpl; auto.
  apply prefix_app_r. exact A.
Qed.

Lemma grammar_keeps_node np s :
  (forall s0 st, final_state (np_parser np s0) = Some st -> keeps s0 st) ->
  Forall pure_action (actions np) ->
  forall st, final_state (Parsers.nodefn np s) = Some st -> keeps s st.
Proof.
  intros IH Hpure st.
  destruct (np_parser np s) as [[|] s1|e s1|] eqn:Hp.
  - pose proof (IH s s1 ltac:(rewrite Hp; reflexivity)) as Hk.
    destruct (decide (np_count np
                      < Z.of_nat (length (ast s1)) - Z.of_nat (length (ast s)))%Z)
      as [Hlt|Hge].
    + rewrite (nodefn_creates np s s1 Hp Hlt).
      destruct (run_actions_pure (actions np) (VRef (length (heap s1)))
                  (node_made (np_name np) (Parsers.save s) s1) Hpure)
        as [r ->].
      pose proof (keeps_node_made (np_name np) s s1 Hk) as Hm.
      destruct r as [node|[]]; simpl.
      * intros [= <-]. apply keeps_push. exact Hm.
      * apply keeps_restore. exact Hm.
    + rewrite (nodefn_pass_through np s s1 Hp) by lia.
      simpl. intros [= <-]. exact Hk.
  - unfold Parsers.nodefn. rewrite Hp.
    apply keeps_restore. apply IH. rewrite Hp. reflexivity.
  - unfold Parsers.nodefn. rewrite Hp. simpl.
    intros [= <-]. apply IH. rewrite Hp. reflexivity.
  - unfold Parsers.nodefn. rewrite Hp. discriminate.
Qed.

(* The invariant of the rules of the library, by induction on the rule. *)
Lemma grammar_preserves (P : parser) (s st : state) :
  grammar P -> final_state (P s) = Some st -> keeps s st.
Proof.
  intros HG. revert s st.
  induction HG as
    [ b | | | | nm | lbl | | p q1 q2 _ IHp _ IH1 _ IH2
      | p _ IH | p _ IH | np _ IH Hpure | np _ IH Hpure
      | fuel p _ IH | fuel p _ IH ]; intros s st.
  - simpl. intros [= <-]. apply keeps_refl.
  - unfold Parsers.keep. destruct (tokens s !! cursor s) as [l|] eqn:Hl;
      simpl; intros [= <-]; [|apply keeps_refl].
    apply lookup_lt_Some in Hl.
    split; simpl; auto; try lia. apply prefix_app_r. reflexivity.
  - unfold JsParser.keep. destruct (tokens s !! cursor s) as [l|] eqn:Hl;
      simpl; intros [= <-]; [|apply keeps_refl].
    apply lookup_lt_Some in Hl.
    split; simpl; auto; try lia; apply prefix_app_r; reflexivity.
  - unfold Parsers.skip. destruct (tokens s !! cursor s) as [l|] eqn:Hl;
      simpl; intros [= <-]; [|apply keeps_refl].
    apply lookup_lt_Some in Hl. split; simpl; auto; lia.
  - unfold Parsers.is_. destruct (tokens s !! cursor s) as [l|];
      simpl; intros [= <-]; apply keeps_refl.
  - simpl. intros [= <-]. split; simpl; auto.
    right. eexists. split; [reflexivity|simpl; lia].
  - simpl. intros [= <-]. apply keeps_refl.
  - unfold bind. destruct (p s) as [r s1|e s1|] eqn:Hp; simpl;
      try discriminate.
    + pose proof (IHp s s1 ltac:(rewrite Hp; reflexivity)) as Hk.
      intros Hq. apply (keeps_trans _ _ _ Hk).
      destruct r; [apply IH1 | apply IH2]; exact Hq.
    + intros [= <-]. apply IHp. rewrite Hp. reflexivity.
  - unfold Parsers.bt. destruct (p s) as [[|] s1|e s1|] eqn:Hp; simpl;
      try discriminate.
    + intros [= <-]. apply IH. rewrite Hp. reflexivity.
    + apply keeps_restore. apply IH. rewrite Hp. reflexivity.
    + intros [= <-]. apply IH. rewrite Hp. reflexivity.
  - rewrite bt_agree.
    unfold Parsers.bt. destruct (p s) as [[|] s1|e s1|] eqn:Hp; simpl;
      try discriminate.
    + intros [= <-]. apply IH. rewrite Hp. reflexivity.
    + apply keeps_restore. apply IH. rewrite Hp. reflexivity.
    + intros [= <-]. apply IH. rewrite Hp. reflexivity.
  - apply grammar_keeps_node; assumption.
  - rewrite nodefn_agree. apply grammar_keeps_node; assumption.
  - revert s. induction fuel as [|fuel IHf]; intros s; simpl; [discriminate|].
    destruct (p s) as [[|] s1|e s1|] eqn:Hp; simpl; try discriminate.
    + intros Hm. apply (keeps_trans _ s1).
      * apply IH. rewrite Hp. reflexivity.
      * apply IHf. exact Hm.
    + intros [= <-]. apply IH. rewrite Hp. reflexivity.
    + intros [= <-]. apply IH. rewrite Hp. reflexivity.
  - unfold JsParser.many. generalize (cursor s) at 1. intros next. revert s next.
    induction fuel as [|fuel IHf]; intros s next; simpl; [discriminate|].
    destruct (p s) as [[|] s1|e s1|] eqn:Hp; simpl; try discriminate.
    + pose proof (IH s s1 ltac:(rewrite Hp; reflexivity)) as Hk.
      case_bool_decide; simpl.
      * intros [= <-]. exact Hk.
      * intros Hm. apply (keeps_trans _ s1 _ Hk). apply (IHf _ _ Hm).
    + intros [= <-]. apply IH. rewrite Hp. reflexivity.
    + intros [= <-]. apply IH. rewrite Hp. reflexivity.
Qed.

Lemma grammar_alt p q : grammar p -> grammar q -> grammar (alt p q).
Proof. intros Hp Hq. exact (g_cond p (ret true) q Hp (g_ret true) Hq). Qed.

Lemma grammar_seq p q : grammar p -> grammar q -> grammar (seq p q).
Proof. intros Hp Hq. exact (g_cond p q (ret false) Hp Hq (g_ret false)). Qed.

Lemma grammar_primitive nm P : P ∈ primitives nm -> grammar P.
Proof.
  intros HP. unfold primitives in HP.
  repeat (apply elem_of_cons in HP as [-> | HP];
          [first [ exact g_keep | exact g_keep_js | exact g_skip
                 | exact (g_is nm) | exact g_END
                 | apply grammar_seq;
                   first [exact (g_is nm) | exact g_keep | exact g_keep_js
                         | exact g_skip]
                 | apply g_cond;
                   first [exact (g_is nm) | exact g_keep | exact g_keep_js
                         | exact (g_ret false)] ]|]).
  apply elem_of_nil in HP as [].
Qed.

Lemma grammar_cut_js lbl : grammar (JsParser.cut lbl).
Proof. exact (g_cut lbl). Qed.

Lemma grammar_match_js nm : grammar (JsParser.match_ nm).
Proof.
  apply (grammar_primitive nm). unfold primitives.
  do 10 apply list_elem_of_further. apply list_elem_of_here.
Qed.

Lemma grammar_expr : grammar Example.expr.
Proof.
  unfold Example.expr. apply g_node_js; [|apply Forall_nil_2]. simpl.
  apply grammar_seq; [apply grammar_match_js|].
  apply g_many_js, g_bt_js. unfold Example.tail.
  apply grammar_seq.
  - apply grammar_alt; apply grammar_match_js.
  - apply grammar_seq; [apply grammar_cut_js | apply grammar_match_js].
Qed.

(** X4: a rule built from the primitives and the combinators of the library
    (with actions that only compute) never changes the token array or an
    object of the store, never moves the cursor back or past the end, only
    adds entries on top of the stack it found, and leaves the cut marker
    alone or sets one at or after the cursor it started from; this holds
    for the state it returns in, on success and on failure, and for the
    state it throws. *)
Theorem grammar_keeps (P : parser) (s st : state) :
  grammar P -> final_state (P s) = Some st -> keeps s st.
Proof. apply grammar_preserves. Qed.

Lemma grammar_keeps_witness : keeps Example.s_start Example.s_stuck.
Proof.
  apply (grammar_keeps Example.expr Example.s_start Example.s_stuck).
  - exact grammar_expr.
  - reflexivity.
Defined.

(** X5: a [bt] or [node] rule of a grammar that reports failure has had no
    effect on the parse: the token array, the cursor, the stack and the cut
    marker are those from before the call (objects made on the way stay in
    the store, unreferenced). *)
Theorem failed_rule_has_no_effect (P : parser) (s s' : state) :
  (exists p, grammar p /\ (P = Parsers.bt p \/ P = JsParser.bt p)) \/
  (exists np, grammar (np_parser np) /\ Forall pure_action (actions np) /\
              (P = Parsers.nodefn np \/ P = JsParser.nodefn np)) ->
  P s = Ret false s' ->
  s' = set_heap (heap s') s.
Proof.
  intros HP Hfail.
  assert (HG : grammar P).
  { destruct HP as [(p & Hp & [-> | ->]) | (np & Hp & Ha & [-> | ->])];
      [apply g_bt | apply g_bt_js | apply g_node | apply g_node_js]; assumption. }
  pose proof (grammar_preserves P s s' HG ltac:(rewrite Hfail; reflexivity))
    as [T C B A H K].
  assert (Hrew : exists saved s1,
             sv_cursor saved = cursor s /\ sv_astlen saved = length (ast s) /\
             Parsers.restore saved s1 = Ret false s').
  { destruct HP as [(p & Hp & HPeq) | (np & Hp & Ha & HPeq)].
    - assert (Hb : Parsers.bt p s = Ret false s')
        by (destruct HPeq as [-> | ->]; [exact Hfail | rewrite <- bt_agree; exact Hfail]).
      unfold Parsers.bt in Hb.
      destruct (p s) as [[|] s1|e s1|]; try discriminate.
      exists (Parsers.save s), s1. auto.
    - assert (Hb : Parsers.nodefn np s = Ret false s')
        by (destruct HPeq as [-> | ->];
            [exact Hfail | rewrite <- nodefn_agree; exact Hfail]).
      unfold Parsers.nodefn in Hb.
      destruct (np_parser np s) as [[|] s1|e s1|]; try discriminate.
      + case_bool_decide; [|discriminate].
        simpl in Hb.
        destruct (Parsers.run_actions _ _ _) as [[node|[]] s4|e s4|];
          try discriminate.
        exists (Parsers.save s), s4. auto.
      + exists (Parsers.save s), s1. auto. }
  destruct Hrew as (saved & s1 & Hc & Hl & Hr).
  unfold Parsers.restore in Hr.
  destruct (cut_at_or_after (sv_cursor saved) s1) eqn:Hcut; [discriminate|].
  injection Hr as <-. simpl in *.
  assert (Hcut' : cut_ s1 = cut_ s).
  { destruct K as [K|(c & K & Hle)]; [exact K|].
    exfalso. rewrite cut_at_or_after_false in Hcut.
    specialize (Hcut c K). lia. }
  assert (Hast : ast s = set_length (sv_astlen saved) (ast s1)).
  { apply prefix_length_eq; [exact A|]. rewrite length_set_length. lia. }
  unfold set_heap, set_ast, set_cursor. simpl.
  rewrite Hc, <- Hast, T, Hcut'. reflexivity.
Qed.

Lemma failed_rule_has_no_effect_witness :
  State [0] 0 [] None
    [OToken (Example.number "1" 0); OToken (Example.number "1" 0)] =
  set_heap [OToken (Example.number "1" 0); OToken (Example.number "1" 0)]
    (fresh_state [Example.number "1" 0]).
Proof.
  apply (failed_rule_has_no_effect
           (JsParser.bt (seq JsParser.keep (JsParser.is_ "plus")))
           (fresh_state [Example.number "1" 0])
           (State [0] 0 [] None
              [OToken (Example.number "1" 0); OToken (Example.number "1" 0)])).
  - left. exists (seq JsParser.keep (JsParser.is_ "plus")). split.
    + apply grammar_seq; [exact g_keep_js | exact (g_is "plus")].
    + right. reflexivity.
  - reflexivity.
Defined.

(** X6: once a [cut] has been passed inside a backtracking rule, a failure
    of what follows it in that rule is fatal: for rules [p] and [q] of a
    grammar, if [p] succeeds and [q] fails after the cut, then
    [bt(p && cut(label) && q)] throws the state [q] left, and the marker
    that state carries is at or after the position of the cut. *)
Theorem cut_then_failure_throws (p q : parser) (lbl : value)
    (s s1 s2 : state) :
  grammar p -> grammar q ->
  p s = Ret true s1 ->
  q (set_cut (Some (CutMark lbl (cursor s1))) s1) = Ret false s2 ->
  Parsers.bt (seq p (seq (Parsers.cut lbl) q)) s = Throw ThrowState s2 /\
  JsParser.bt (seq p (seq (JsParser.cut lbl) q)) s = Throw ThrowState s2 /\
  exists c, cut_ s2 = Some c /\ cursor s1 <= at_ c.
Proof.
  intros Gp Gq Hp Hq.
  pose proof (grammar_preserves p s s1 Gp ltac:(rewrite Hp; reflexivity)) as K1.
  pose proof (grammar_preserves q _ s2 Gq ltac:(rewrite Hq; reflexivity)) as K2.
  assert (Hc : exists c, cut_ s2 = Some c /\ cursor s1 <= at_ c).
  { destruct (keeps_cut _ _ K2) as [K|(c & K & Hle)]; simpl in *.
    - exists (CutMark lbl (cursor s1)). split; [exact K | simpl; lia].
    - exists c. auto. }
  assert (Hb : Parsers.bt (seq p (seq (Parsers.cut lbl) q)) s
               = Throw ThrowState s2).
  { unfold Parsers.bt, seq, bind, Parsers.cut. rewrite Hp, Hq.
    apply restore_throws. apply cut_at_or_after_true.
    destruct Hc as (c & Hc & Hle). exists c. split; [exact Hc|].
    simpl. pose proof (keeps_cursor _ _ K1). lia. }
  split; [exact Hb|]. split; [|exact Hc].
  rewrite bt_agree. exact Hb.
Qed.

Lemma cut_then_failure_throws_witness :
  JsParser.bt
    (seq (JsParser.match_ "plus")
       (seq (JsParser.cut (VNum 1)) (JsParser.match_ "number")))
    Example.s_number = Throw ThrowState Example.s_stuck.
Proof.
  apply (cut_then_failure_throws (JsParser.match_ "plus")
           (JsParser.match_ "number") (VNum 1) Example.s_number
           (State [0; 1] 2 [VRef 2; VRef 3] None
              [OToken (Example.number "1" 0); OToken (Example.plus 1);
               OToken (Example.number "1" 0); OToken (Example.plus 1)])
           Example.s_stuck).
  - apply grammar_match_js.
  - apply grammar_match_js.
  - reflexivity.
  - reflexivity.
Defined.

(** ** bt and node *)

Lemma set_length_idem n a : set_length n (set_length n a) = set_length n a.
Proof.
  unfold set_length at 1. rewrite length_set_length.
  replace (n - n) with 0 by lia. simpl. rewrite app_nil_r.
  apply take_ge. rewrite length_set_length. lia.
Qed.

Lemma restore_twice saved s :
  bind (Parsers.restore saved) (fun _ => Parsers.restore saved) s =
    Parsers.restore saved s.
Proof.
  unfold bind, Parsers.restore.
  destruct (cut_at_or_after (sv_cursor saved) s) eqn:Hc; [reflexivity|].
  unfold cut_at_or_after in *. simpl. rewrite Hc.
  unfold set_ast, set_cursor. simpl. rewrite set_length_idem. reflexivity.
Qed.

(** X7: backtracking twice is backtracking once, and [node] already
    backtracks: [bt(bt(p))] behaves as [bt(p)], and a node parser over
    [bt(p)] behaves as the node parser over [p], for every parser [p],
    every state and every list of actions. *)
Theorem bt_absorbed (p : parser) (s : state) :
  Parsers.bt (Parsers.bt p) s = Parsers.bt p s /\
  JsParser.bt (JsParser.bt p) s = JsParser.bt p s /\
  forall nm count acts,
    Parsers.nodefn (NodeParser nm (Parsers.bt p) count acts) s =
      Parsers.nodefn (NodeParser nm p count acts) s /\
    JsParser.nodefn (NodeParser nm (JsParser.bt p) count acts) s =
      JsParser.nodefn (NodeParser nm p count acts) s.
Proof.
  assert (H1 : Parsers.bt (Parsers.bt p) s = Parsers.bt p s).
  { unfold Parsers.bt at 1.
    destruct (Parsers.bt p s) as [[|] s1|e s1|] eqn:Hb; try reflexivity.
    unfold Parsers.bt in Hb.
    destruct (p s) as [[|] s0|e0 s0|]; try discriminate.
    pose proof (restore_twice (Parsers.save s) s0) as Ht.
    unfold bind in Ht. rewrite Hb in Ht. exact Ht. }
  assert (H2 : forall nm count acts,
             Parsers.nodefn (NodeParser nm (Parsers.bt p) count acts) s =
               Parsers.nodefn (NodeParser nm p count acts) s).
  { intros nm count acts. unfold Parsers.nodefn. simpl.
    unfold Parsers.bt at 1.
    destruct (p s) as [[|] s0|e0 s0|]; try reflexivity.
    pose proof (restore_twice (Parsers.save s) s0) as Ht.
    unfold bind in Ht.
    destruct (Parsers.restore (Parsers.save s) s0) as [[|] s1|e s1|] eqn:Hr;
      try reflexivity; try exact Ht.
    unfold Parsers.restore in Hr.
    destruct (cut_at_or_after _ s0); discriminate. }
  split; [exact H1|]. split.
  - rewrite !bt_agree.
    transitivity (Parsers.bt (Parsers.bt p) s); [|exact H1].
    unfold Parsers.bt at 1 3. rewrite bt_agree. reflexivity.
  - intros nm count acts. split; [apply H2|].
    rewrite !nodefn_agree. rewrite <- H2.
    unfold Parsers.nodefn. simpl. rewrite bt_agree. reflexivity.
Qed.

(** ** many *)



Lemma many_loop_agree fuel p next s r s' :
  JsParser.many_loop fuel p next s = Ret r s' ->
  Parsers.many fuel p s = Ret r s'.
Proof.
  revert s next. induction fuel as [|fuel IH]; intros s next; simpl;
    [discriminate|].
  destruct (p s) as [[|] s1|e s1|]; try discriminate; [|auto].
  case_bool_decide; [discriminate|]. apply IH.
Qed.

Lemma many_loop_advancing fuel p next s :
  (forall s0 s1, p s0 = Ret true s1 -> cursor s1 <> cursor s0) ->
  next = cursor s ->
  JsParser.many_loop fuel p next s = Parsers.many fuel p s.
Proof.
  intros Hadv. revert s next.
  induction fuel as [|fuel IH]; intros s next Hn; simpl; [reflexivity|].
  destruct (p s) as [[|] s1|e s1|] eqn:Hp; try reflexivity.
  subst next. rewrite bool_decide_eq_false_2 by exact (Hadv _ _ Hp).
  apply IH. reflexivity.
Qed.

(** X9: the two [many] differ only where the guard of jsparser.js fires:
    whenever the [many] of jsparser.js returns, the [many] of parsers.js
    returns the same, and over a parser that moves the cursor whenever it
    succeeds the two have the same outcome. *)
Theorem many_variants_agree (fuel : nat) (p : parser) (s : state) :
  (forall r s', JsParser.many fuel p s = Ret r s' ->
                Parsers.many fuel p s = Ret r s') /\
  ((forall s0 s1, p s0 = Ret true s1 -> cursor s1 <> cursor s0) ->
   JsParser.many fuel p s = Parsers.many fuel p s).
Proof.
  split.
  - intros r s'. apply many_loop_agree.
  - intros Hadv. apply many_loop_advancing; [exact Hadv | reflexivity].
Qed.

Lemma many_variants_agree_witness :
  Parsers.many 3 Parsers.keep (fresh_state [Example.number "1" 0]) =
    Ret true (State [0] 1 [VRef 0] None [OToken (Example.number "1" 0)]).
Proof.
  apply (proj1 (many_variants_agree 3 Parsers.keep
                  (fresh_state [Example.number "1" 0]))).
  reflexivity.
Defined.

Lemma js_grammar_grammar n P : js_grammar n P -> grammar P.
Proof.
  induction 1 as [b| | |nm|lbl| |p q1 q2 _ IHp _ IH1 _ IH2|p _ IH
                  |np _ IH Hpure|fuel p _ _ IH].
  - apply g_ret.
  - apply g_keep_js.
  - exact g_skip.
  - exact (g_is nm).
  - exact (g_cut lbl).
  - exact g_END.
  - apply g_cond; assumption.
  - apply g_bt_js; assumption.
  - apply g_node_js; assumption.
  - apply g_many_js; assumption.
Qed.

Lemma restore_returns saved s : Parsers.restore saved s <> OutOfFuel.
Proof. unfold Parsers.restore. destruct (cut_at_or_after _ s); discriminate. Qed.

(** X10: the rules of jsparser.js end.  Over at most [n] tokens, a rule
    built from the primitives, [||], [&&], [bt], [node] (with actions that
    only compute) and [many] never needs more than [n + 1] evaluations of
    the condition of a [many] loop: with that much fuel in every [many] it
    returns or throws. *)
Theorem js_grammar_ends (n : nat) (P : parser) (s : state) :
  js_grammar n P ->
  cursor s <= length (tokens s) -> length (tokens s) <= n ->
  P s <> OutOfFuel.
Proof.
  intros HG. revert s.
  induction HG as [b| | |nm|lbl| |p q1 q2 Gp IHp _ IH1 _ IH2|p _ IH
                   |np _ IH Hpure|fuel p Hfuel Gp IH]; intros s Hc Hn.
  - discriminate.
  - unfold JsParser.keep. destruct (tokens s !! cursor s); discriminate.
  - unfold JsParser.skip. destruct (tokens s !! cursor s); discriminate.
  - unfold JsParser.is_. destruct (tokens s !! cursor s); discriminate.
  - discriminate.
  - discriminate.
  - unfold bind. destruct (p s) as [r s1|e s1|] eqn:Hp;
      [|discriminate|destruct (IHp s Hc Hn Hp)].
    pose proof (grammar_preserves p s s1 (js_grammar_grammar _ _ Gp)
                  ltac:(rewrite Hp; reflexivity)) as [T C B _ _ _].
    specialize (B Hc). rewrite T in B.
    destruct r; [apply IH1 | apply IH2]; rewrite ?T; auto.
  - rewrite bt_agree. unfold Parsers.bt.
    destruct (p s) as [[|] s1|e s1|] eqn:Hp; try discriminate.
    + apply restore_returns.
    + destruct (IH s Hc Hn Hp).
  - rewrite nodefn_agree. unfold Parsers.nodefn.
    destruct (np_parser np s) as [[|] s1|e s1|] eqn:Hp; try discriminate.
    + case_bool_decide; [|discriminate]. simpl.
      match goal with
      | |- context [Parsers.run_actions ?a ?v ?st] =>
          destruct (run_actions_pure a v st Hpure) as [r ->]
      end.
      destruct r as [node|[]]; [discriminate | apply restore_returns].
    + apply restore_returns.
    + destruct (IH s Hc Hn Hp).
  - unfold JsParser.many.
    assert (Hd : length (tokens s) - cursor s < fuel) by lia.
    generalize (eq_refl (cursor s)). generalize (cursor s) at 1 3.
    intros next Hnext. clear Hfuel. revert s next Hc Hn Hd Hnext.
    induction fuel as [|fuel IHf]; intros s next Hc Hn Hd Hnext; [lia|].
    simpl. destruct (p s) as [[|] s1|e s1|] eqn:Hp; try discriminate.
    + case_bool_decide as Hne; [discriminate|].
      pose proof (grammar_preserves p s s1 (js_grammar_grammar _ _ Gp)
                    ltac:(rewrite Hp; reflexivity)) as [T C B _ _ _].
      specialize (B Hc). rewrite T in B.
      apply IHf; rewrite ?T; try lia; reflexivity.
    + destruct (IH s Hc Hn Hp).
Qed.

Lemma js_grammar_seq n p q :
  js_grammar n p -> js_grammar n q -> js_grammar n (seq p q).
Proof. intros Hp Hq. exact (jg_cond n p q (ret false) Hp Hq (jg_ret n false)). Qed.

Lemma js_grammar_alt n p q :
  js_grammar n p -> js_grammar n q -> js_grammar n (alt p q).
Proof. intros Hp Hq. exact (jg_cond n p (ret true) q Hp (jg_ret n true) Hq). Qed.

Lemma js_grammar_match n nm : js_grammar n (JsParser.match_ nm).
Proof. apply js_grammar_seq; [apply jg_is | apply jg_keep]. Qed.

Lemma js_grammar_ends_witness : Example.expr Example.s_start <> OutOfFuel.
Proof.
  apply (js_grammar_ends 9 Example.expr Example.s_start).
  - unfold Example.expr. apply jg_node; [|apply Forall_nil_2]. simpl.
    apply js_grammar_seq; [apply js_grammar_match|].
    apply jg_many; [lia|]. apply jg_bt. unfold Example.tail.
    apply js_grammar_seq.
    + apply js_grammar_alt; apply js_grammar_match.
    + apply js_grammar_seq; [apply jg_cut | apply js_grammar_match].
  - simpl. lia.
  - simpl. lia.
Defined.

(** ** save and restore *)

Lemma set_length_same a : set_length (length a) a = a.
Proof.
  unfold set_length. rewrite take_ge by lia.
  replace (length a - length a) with 0 by lia. apply app_nil_r.
Qed.

(** X11: restoring a checkpoint in the state it was saved in changes
    nothing and reports failure, unless the cut marker is at or after the
    cursor: then it throws, although nothing would have been taken back
    (so a rule that fails right after a [cut], without having consumed
    anything, still throws). *)
Theorem save_restore (s : state) :
  (cut_at_or_after (cursor s) s = false ->
   Parsers.restore (Parsers.save s) s = Ret false s /\
   JsParser.restore (JsParser.save s) s = Ret false s) /\
  (forall c, cut_ s = Some c -> cursor s <= at_ c ->
             Parsers.restore (Parsers.save s) s = Throw ThrowState s /\
             JsParser.restore (JsParser.save s) s = Throw ThrowState s) /\
  (forall lbl,
     Parsers.bt (seq (Parsers.cut lbl) (ret false)) s =
       Throw ThrowState (set_cut (Some (CutMark lbl (cursor s))) s) /\
     JsParser.bt (seq (JsParser.cut lbl) (ret false)) s =
       Throw ThrowState (set_cut (Some (CutMark lbl (cursor s))) s)).
Proof.
  split; [|split].
  - intros Hc.
    assert (H : Parsers.restore (Parsers.save s) s = Ret false s).
    { rewrite (restore_rewinds (Parsers.save s) s Hc). unfold rewind. simpl.
      rewrite set_length_same. destruct s; reflexivity. }
    split; exact H.
  - intros c Hc Hle.
    assert (H : Parsers.restore (Parsers.save s) s = Throw ThrowState s).
    { apply restore_throws, cut_at_or_after_true. exists c. auto. }
    split; exact H.
  - intros lbl.
    assert (H : Parsers.bt (seq (Parsers.cut lbl) (ret false)) s =
                Throw ThrowState (set_cut (Some (CutMark lbl (cursor s))) s)).
    { unfold Parsers.bt, seq, bind, ret, Parsers.cut.
      apply restore_throws. unfold cut_at_or_after. simpl.
      apply bool_decide_eq_true_2. lia. }
    split; [exact H|]. rewrite bt_agree. exact H.
Qed.

Lemma save_restore_witness :
  Parsers.restore (Parsers.save Example.s_number) Example.s_number =
    Ret false Example.s_number.
Proof.
  apply (proj1 (save_restore Example.s_number)). reflexivity.
Defined.

(** ** The action chain *)

(** X12: [action(nodeparser, f)] puts [f] at the end of the chain: the
    actions registered before run first, in their order, [f] receives the
    value they ended with, and [f] is not called at all when one of them
    has vetoed or thrown; a falsy result of [f] is a veto. *)
Theorem action_runs_last (np : nodeparser) (f : action_fn) (v : value)
    (s : state) :
  Parsers.run_actions (actions (Parsers.action np f)) v s =
    match Parsers.run_actions (actions np) v s with
    | Ret (inl v') s' =>
        match f v' s' with
        | Ret w s'' => Ret (if truthy w then inl w else inr tt) s''
        | Throw e s'' => Throw e s''
        | OutOfFuel => OutOfFuel
        end
    | Ret (inr u) s' => Ret (inr u) s'
    | Throw e s' => Throw e s'
    | OutOfFuel => OutOfFuel
    end /\
  JsParser.run_actions (actions (JsParser.action np f)) v s =
    Parsers.run_actions (actions (Parsers.action np f)) v s.
Proof.
  split; [|reflexivity]. simpl.
  generalize (actions np). intros acts. revert v s.
  induction acts as [|a acts IH]; intros v s; simpl.
  - unfold bind, ret. destruct (f v s) as [w s''|e s''|]; try reflexivity.
    destruct (truthy w); reflexivity.
  - unfold bind. destruct (a v s) as [w s1|e s1|]; try reflexivity.
    destruct (truthy w); [apply IH|reflexivity].
Qed.

(** * Further properties of the tokenizers *)

(** ** Substrings *)

Lemma length_substring a n s :
  a + n <= String.length s -> String.length (String.substring a n s) = n.
Proof.
  revert a n. induction s as [|c s IH]; intros a n; simpl.
  - intros H. assert (a = 0) by lia. assert (n = 0) by lia. subst. reflexivity.
  - destruct a as [|a]; simpl.
    + destruct n as [|n]; simpl; [reflexivity|].
      intros H. rewrite IH by lia. reflexivity.
    + intros H. apply IH. lia.
Qed.

Lemma substring_append a n m s :
  String.substring a n s +:+ String.substring (a + n) m s =
    String.substring a (n + m) s.
Proof.
  revert a n. induction s as [|c s IH]; intros a n; simpl.
  - destruct a, n; simpl; try reflexivity; destruct m; reflexivity.
  - destruct a as [|a]; simpl.
    + destruct n as [|n]; simpl.
      * destruct m; reflexivity.
      * change (String c (String.substring 0 n s
                          +:+ String.substring (0 + n) m s) =
                String c (String.substring 0 (n + m) s)).
        f_equal. apply (IH 0 n).
    + apply IH.
Qed.

Lemma substring_all s : String.substring 0 (String.length s) s = s.
Proof. induction s as [|c s IH]; simpl; [reflexivity|f_equal; exact IH]. Qed.

Lemma substring_none a s : String.substring a 0 s = "".
Proof.
  revert a. induction s as [|c s IH]; intros [|a]; simpl; auto.
Qed.

Lemma slice_append str a b c :
  a <= b -> b <= c -> slice str a b +:+ slice str b c = slice str a c.
Proof.
  intros Hab Hbc. unfold slice.
  replace b with (a + (b - a)) at 2 by lia.
  rewrite substring_append. f_equal. lia.
Qed.

Lemma length_slice str a b :
  a <= b -> b <= String.length str -> String.length (slice str a b) = b - a.
Proof. intros Hab Hb. unfold slice. apply length_substring. lia. Qed.

Lemma placed_slice str nm a b :
  a <= b -> b <= String.length str ->
  placed str (Token nm (slice str a b) a) /\
  a + String.length (slice str a b) = b.
Proof.
  intros Hab Hb. pose proof (length_slice str a b Hab Hb) as Hl.
  unfold placed. simpl. rewrite Hl.
  replace (a + (b - a)) with b by lia. repeat split; lia.
Qed.

(** ** Tokens in their place *)

Lemma ordered_weaken str a b toks c :
  a <= b -> ordered str b toks c -> ordered str a toks c.
Proof.
  destruct toks as [|t rest]; simpl; [lia|].
  intros H (H1 & H2 & H3). split; [lia|]. split; assumption.
Qed.

Lemma ordered_app str a t1 b t2 c :
  ordered str a t1 b -> ordered str b t2 c -> ordered str a (t1 ++ t2) c.
Proof.
  revert a. induction t1 as [|t t1 IH]; intros a; simpl.
  - intros H. apply ordered_weaken, H.
  - intros (H1 & H2 & H3) H4. split; [exact H1|]. split; [exact H2|]. auto.
Qed.

Lemma tiles_app str a t1 b t2 c :
  tiles str a t1 b -> tiles str b t2 c -> tiles str a (t1 ++ t2) c.
Proof.
  revert a. induction t1 as [|t t1 IH]; intros a; simpl.
  - intros ->. auto.
  - intros (H1 & H2 & H3) H4. split; [exact H1|]. split; [exact H2|]. auto.
Qed.

Lemma tiles_ordered str a toks b : tiles str a toks b -> ordered str a toks b.
Proof.
  revert a. induction toks as [|t toks IH]; intros a; simpl.
  - intros ->. lia.
  - intros (-> & H2 & H3). split; [lia|]. split; [exact H2|]. auto.
Qed.

Lemma tiles_le str a toks b : tiles str a toks b -> a <= b.
Proof.
  revert a. induction toks as [|t toks IH]; intros a; simpl.
  - intros ->. lia.
  - intros (<- & _ & H3). apply IH in H3. lia.
Qed.

Lemma tiles_texts str a toks b :
  tiles str a toks b -> texts toks = slice str a b.
Proof.
  revert a. induction toks as [|t toks IH]; intros a; simpl.
  - intros ->. unfold slice. replace (b - b) with 0 by lia.
    symmetry. apply substring_none.
  - intros (<- & [_ Hp] & H3). rewrite (IH _ H3), Hp at 1.
    apply slice_append; [lia|]. apply tiles_le in H3. exact H3.
Qed.

Section StringLexerPlaces.
Variables (E : engine) (lx : StringLexer.lexer) (c : StringLexer.compiled E)
  (str : string).
Hypothesis Hhandler : span_keeping (StringLexer.unknownhandler lx).

(** The token that the handler returns for a span of the input. *)
Lemma s_span_token a b t :
  a <= b -> b <= String.length str ->
  StringLexer.unknownhandler lx (unknown_token (slice str a b) a) = Ok t ->
  tiles str a [t] b.
Proof.
  intros Hab Hb Ht. destruct (Hhandler _ _ Ht) as [Htext Hcur].
  simpl in Htext, Hcur.
  destruct (placed_slice str (Some "unknown") a b Hab Hb) as [[Hp1 Hp2] Hlen].
  simpl in Hp1, Hp2. simpl. unfold placed. rewrite Htext, Hcur.
  repeat split; auto.
Qed.

Lemma s_step_tiles toks lm m toks' lm' :
  in_order str lm [m] -> lm <= String.length str ->
  StringLexer.step E lx c str (toks, lm) m = Ok (toks', lm') ->
  exists more,
    toks' = toks ++ more /\ ordered str lm more lm' /\
    (StringLexer.keepws lx = true -> tiles str lm more lm') /\
    lm' = index m + String.length (m0 m).
Proof.
  intros (Hfrom & Hin & Htext & _) Hlm. unfold StringLexer.step.
  assert (Hgap : exists g,
             StringLexer.gap lx str toks lm (index m) = Ok (toks ++ g) /\
             tiles str lm g (index m) \/
             exists e, StringLexer.gap lx str toks lm (index m) = Err e).
  { unfold StringLexer.gap. case_bool_decide.
    - destruct (StringLexer.unknownhandler lx _) as [t|e] eqn:Ht; simpl.
      + exists [t]. left. split; [reflexivity|].
        apply (s_span_token lm (index m) t); [lia|lia|exact Ht].
      + exists []. right. eauto.
    - exists []. left. rewrite app_nil_r. split; [reflexivity|]. simpl. lia. }
  destruct Hgap as (g & [[-> Hg] | [e ->]]); simpl; [|discriminate].
  assert (Htok : tiles str (index m)
                   [Token (StringLexer.match_name E c m) (m0 m) (index m)]
                   (index m + String.length (m0 m))).
  { simpl. unfold placed. simpl. auto. }
  unfold StringLexer.emit.
  destruct (negb _ || StringLexer.keepws lx) eqn:Hk; simpl; intros [= <- <-].
  - eexists. split; [symmetry; apply app_assoc|].
    pose proof (tiles_app _ _ _ _ _ _ Hg Htok) as Ht.
    split; [apply tiles_ordered, Ht|]. auto.
  - exists g. split; [reflexivity|]. split.
    + rewrite <- (app_nil_r g).
      apply (ordered_app _ _ _ (index m) [] _ (tiles_ordered _ _ _ _ Hg)).
      simpl. lia.
    + split; [|reflexivity]. intros Hkw. rewrite Hkw, orb_true_r in Hk.
      discriminate.
Qed.

Lemma s_scan_tiles ms toks lm toks' lm' :
  in_order str lm ms -> lm <= String.length str ->
  StringLexer.scan E lx c str ms (toks, lm) = Ok (toks', lm') ->
  exists more,
    toks' = toks ++ more /\ ordered str lm more lm' /\
    (StringLexer.keepws lx = true -> tiles str lm more lm') /\
    lm' <= String.length str.
Proof.
  revert toks lm. induction ms as [|m ms IH]; intros toks lm Hin Hlm.
  - simpl. intros [= <- <-]. exists []. rewrite app_nil_r. simpl. auto.
  - change (StringLexer.scan E lx c str (m :: ms) (toks, lm))
      with (try acc' <- StringLexer.step E lx c str (toks, lm) m;
            StringLexer.scan E lx c str ms acc').
    destruct (StringLexer.step E lx c str (toks, lm) m) as [[t1 l1]|e] eqn:Hs;
      simpl; [|discriminate].
    destruct Hin as (Hfrom & Hend & Htext & Hrest).
    destruct (s_step_tiles toks lm m t1 l1) as (m1 & -> & Ho1 & Ht1 & ->);
      [simpl; auto | exact Hlm | exact Hs |].
    intros Hscan.
    destruct (IH _ _ Hrest Hend Hscan) as (m2 & -> & Ho2 & Ht2 & Hle).
    exists (m1 ++ m2). split; [symmetry; apply app_assoc|].
    split; [exact (ordered_app _ _ _ _ _ _ Ho1 Ho2)|].
    split; [|exact Hle].
    intros Hkw. exact (tiles_app _ _ _ _ _ _ (Ht1 Hkw) (Ht2 Hkw)).
Qed.

Lemma s_tokenizer_tiles out :
  in_order str 0 (matchAll E (StringLexer.re E c) str) ->
  StringLexer.tokenizer E lx c str = Ok out ->
  ordered str 0 out (String.length str) /\
  (StringLexer.keepws lx = true ->
   tiles str 0 out (String.length str) /\ texts out = str).
Proof.
  intros Hin. unfold StringLexer.tokenizer.
  destruct (StringLexer.scan E lx c str _ ([], 0)) as [[toks lm]|e] eqn:Hs;
    simpl; [|discriminate].
  destruct (s_scan_tiles _ _ _ _ _ Hin ltac:(lia) Hs)
    as (more & Hm & Ho & Ht & Hle).
  simpl in Hm. subst more.
  assert (Htail : forall out,
             (if bool_decide (lm < String.length str)
              then try t <- StringLexer.unknownhandler lx
                              (unknown_token (slice_end str lm) lm);
                   Ok (toks ++ [t])
              else Ok toks) = Ok out ->
             exists tl, out = toks ++ tl /\ tiles str lm tl (String.length str)).
  { intros out'. case_bool_decide.
    - destruct (StringLexer.unknownhandler lx _) as [t|e] eqn:Hh; simpl;
        [|discriminate].
      intros [= <-]. exists [t]. split; [reflexivity|].
      apply (s_span_token lm (String.length str) t); [lia|lia|].
      unfold slice_end in Hh. exact Hh.
    - intros [= <-]. exists []. rewrite app_nil_r. split; [reflexivity|].
      simpl. lia. }
  intros Hout. destruct (Htail _ Hout) as (tl & -> & Htl).
  split.
  - exact (ordered_app _ _ _ _ _ _ Ho (tiles_ordered _ _ _ _ Htl)).
  - intros Hkw. pose proof (tiles_app _ _ _ _ _ _ (Ht Hkw) Htl) as Hall.
    split; [exact Hall|].
    rewrite (tiles_texts _ _ _ _ Hall). unfold slice.
    rewrite Nat.sub_0_r. apply substring_all.
Qed.

End StringLexerPlaces.

(** ** The two tokenizers side by side *)

Section TokenizersAgree.
Variables (E : engine) (jl : JsLexer.lexer) (jc : JsLexer.compiled E)
  (sl : StringLexer.lexer) (sc : StringLexer.compiled E) (str : string).
Hypothesis Hkw : StringLexer.keepws sl = JsLexer.keepws jl.
Hypothesis Hh :
  forall u, StringLexer.unknownhandler sl u = JsLexer.unknownhandler jl u.
Hypothesis Hn : StringLexer.tokennames E sc = JsLexer.tokennames E jc.
Hypothesis Hre : StringLexer.re E sc = JsLexer.re E jc.

Lemma gap_agree toks lm upto :
  JsLexer.gap jl str toks lm upto = StringLexer.gap sl str toks lm upto.
Proof. unfold JsLexer.gap, StringLexer.gap. rewrite Hh. reflexivity. Qed.

Lemma emit_agree toks m :
  JsLexer.emit E jl jc toks m = StringLexer.emit E sl sc toks m \/
  exists nm i, JsLexer.emit E jl jc toks m = Err (ZeroLengthToken nm i).
Proof.
  unfold JsLexer.emit, StringLexer.emit, JsLexer.match_name,
    StringLexer.match_name. rewrite Hn, Hkw.
  destruct (negb _ || _); [|left; reflexivity].
  case_bool_decide; [right; eauto | left; reflexivity].
Qed.

Lemma scan_agree ms acc :
  JsLexer.scan E jl jc str ms acc = StringLexer.scan E sl sc str ms acc \/
  exists nm i, JsLexer.scan E jl jc str ms acc = Err (ZeroLengthToken nm i).
Proof.
  revert acc. induction ms as [|m ms IH]; intros [toks lm]; [left; reflexivity|].
  simpl. rewrite gap_agree.
  destruct (StringLexer.gap sl str toks lm (index m)) as [t1|e]; simpl;
    [|left; reflexivity].
  destruct (emit_agree t1 m) as [-> | (nm & i & ->)]; [|right; eauto].
  destruct (StringLexer.emit E sl sc t1 m) as [t2|e]; simpl;
    [apply IH | left; reflexivity].
Qed.

Lemma tokenizer_agree :
  JsLexer.tokenizer E jl jc str = StringLexer.tokenizer E sl sc str \/
  exists nm i, JsLexer.tokenizer E jl jc str = Err (ZeroLengthToken nm i).
Proof.
  unfold JsLexer.tokenizer, StringLexer.tokenizer. rewrite Hre.
  destruct (scan_agree (matchAll E (JsLexer.re E jc) str) ([], 0))
    as [-> | (nm & i & ->)]; [|right; eauto].
  left. destruct (StringLexer.scan E sl sc str _ _) as [[toks lm]|e];
    [|reflexivity].
  simpl. rewrite Hh. reflexivity.
Qed.

End TokenizersAgree.

(** X13: the tokenizer of jsparser.js is the tokenizer of stringlexer.js
    with the zero-length check added: over the same names, pattern, handler
    and whitespace setting, it has the same result, or it throws the
    zero-length error. *)
Theorem tokenizers_agree (E : engine) (jl : JsLexer.lexer)
    (jc : JsLexer.compiled E) (sl : StringLexer.lexer)
    (sc : StringLexer.compiled E) (str : string) :
  StringLexer.keepws sl = JsLexer.keepws jl ->
  (forall u, StringLexer.unknownhandler sl u = JsLexer.unknownhandler jl u) ->
  StringLexer.tokennames E sc = JsLexer.tokennames E jc ->
  StringLexer.re E sc = JsLexer.re E jc ->
  JsLexer.tokenizer E jl jc str = StringLexer.tokenizer E sl sc str \/
  exists nm i, JsLexer.tokenizer E jl jc str = Err (ZeroLengthToken nm i).
Proof. intros. apply tokenizer_agree; assumption. Qed.

Lemma tokenizers_agree_witness :
  JsLexer.tokenizer LexExample.E LexExample.lx LexExample.c "12 + 7" =
    StringLexer.tokenizer LexExample.E
      (StringLexer.Lexer [] false StringLexer.default_unknownhandler)
      (StringLexer.Compiled LexExample.E []
         ["number"; "plus"; "minus"; "whitespace"] LexExample.source)
      "12 + 7" \/
  exists nm i,
    JsLexer.tokenizer LexExample.E LexExample.lx LexExample.c "12 + 7" =
      Err (ZeroLengthToken nm i).
Proof.
  apply (tokenizers_agree LexExample.E LexExample.lx LexExample.c
           (StringLexer.Lexer [] false StringLexer.default_unknownhandler)
           (StringLexer.Compiled LexExample.E []
              ["number"; "plus"; "minus"; "whitespace"] LexExample.source)
           "12 + 7"); reflexivity.
Defined.

(** The tokenizer of stringlexer.js that goes with a Lexer of jsparser.js. *)
Lemma js_as_stringlexer E jl jc str out :
  JsLexer.tokenizer E jl jc str = Ok out ->
  StringLexer.tokenizer E
    (StringLexer.Lexer [] (JsLexer.keepws jl) (JsLexer.unknownhandler jl))
    (StringLexer.Compiled E [] (JsLexer.tokennames E jc) (JsLexer.re E jc))
    str = Ok out.
Proof.
  intros Hj.
  destruct (tokenizer_agree E jl jc
              (StringLexer.Lexer [] (JsLexer.keepws jl) (JsLexer.unknownhandler jl))
              (StringLexer.Compiled E [] (JsLexer.tokennames E jc) (JsLexer.re E jc))
              str eq_refl (fun _ => eq_refl) eq_refl eq_refl)
    as [H | (nm & i & H)].
  - rewrite <- H. exact Hj.
  - rewrite H in Hj. discriminate.
Qed.

(** X14: every token that a tokenizer returns has the text that the input
    has at the token's offset, and the tokens come in the order of the
    input without overlap, when the unknown-span handler returns the span
    it was given (renamed or not) or throws.  The matches are those of
    [matchAll]: in order, inside the input, each with the text it covers. *)
Theorem tokens_in_place (E : engine) (str : string) (out : list token) :
  (forall (lx : JsLexer.lexer) (c : JsLexer.compiled E),
     in_order str 0 (matchAll E (JsLexer.re E c) str) ->
     span_keeping (JsLexer.unknownhandler lx) ->
     JsLexer.tokenizer E lx c str = Ok out ->
     ordered str 0 out (String.length str)) /\
  (forall (lx : StringLexer.lexer) (c : StringLexer.compiled E),
     in_order str 0 (matchAll E (StringLexer.re E c) str) ->
     span_keeping (StringLexer.unknownhandler lx) ->
     StringLexer.tokenizer E lx c str = Ok out ->
     ordered str 0 out (String.length str)).
Proof.
  split.
  - intros lx c Hin Hh Hout. apply js_as_stringlexer in Hout.
    exact (proj1 (s_tokenizer_tiles E
                    (StringLexer.Lexer [] (JsLexer.keepws lx)
                       (JsLexer.unknownhandler lx))
                    (StringLexer.Compiled E [] (JsLexer.tokennames E c)
                       (JsLexer.re E c))
                    str Hh out Hin Hout)).
  - intros lx c Hin Hh Hout.
    exact (proj1 (s_tokenizer_tiles E _ _ str Hh out Hin Hout)).
Qed.

(** X15: with whitespace kept, nothing of the input is lost: the tokens
    cover the input from its start to its end without a hole, and their
    texts joined are the input (same conditions on the handler and on the
    matches). *)
Theorem tokens_cover_input (E : engine) (str : string) (out : list token) :
  (forall (lx : JsLexer.lexer) (c : JsLexer.compiled E),
     in_order str 0 (matchAll E (JsLexer.re E c) str) ->
     span_keeping (JsLexer.unknownhandler lx) ->
     JsLexer.keepws lx = true ->
     JsLexer.tokenizer E lx c str = Ok out ->
     tiles str 0 out (String.length str) /\ texts out = str) /\
  (forall (lx : StringLexer.lexer) (c : StringLexer.compiled E),
     in_order str 0 (matchAll E (StringLexer.re E c) str) ->
     span_keeping (StringLexer.unknownhandler lx) ->
     StringLexer.keepws lx = true ->
     StringLexer.tokenizer E lx c str = Ok out ->
     tiles str 0 out (String.length str) /\ texts out = str).
Proof.
  split.
  - intros lx c Hin Hh Hkw Hout. apply js_as_stringlexer in Hout.
    exact (proj2 (s_tokenizer_tiles E
                    (StringLexer.Lexer [] (JsLexer.keepws lx)
                       (JsLexer.unknownhandler lx))
                    (StringLexer.Compiled E [] (JsLexer.tokennames E c)
                       (JsLexer.re E c))
                    str Hh out Hin Hout) Hkw).
  - intros lx c Hin Hh Hkw Hout.
    exact (proj2 (s_tokenizer_tiles E _ _ str Hh out Hin Hout) Hkw).
Qed.

Lemma span_keeping_default : span_keeping JsLexer.default_unknownhandler.
Proof. intros u t H. discriminate H. Qed.

Lemma span_keeping_csv : span_keeping csv_unknownhandler.
Proof. intros u t [= <-]. simpl. auto. Qed.

Lemma tokens_in_place_witness :
  ordered "12 + 7" 0
    [Token (Some "number") "12" 0; Token (Some "plus") "+" 3;
     Token (Some "number") "7" 5] 6.
Proof.
  apply (proj1 (tokens_in_place LexExample.E "12 + 7"
                  [Token (Some "number") "12" 0; Token (Some "plus") "+" 3;
                   Token (Some "number") "7" 5])
           LexExample.lx LexExample.c).
  - simpl. repeat split; lia.
  - exact span_keeping_default.
  - reflexivity.
Defined.

Lemma tokens_cover_input_witness :
  texts
    [Token (Some "number") "12" 0; Token (Some "whitespace") " " 2;
     Token (Some "unquoted") "@" 3; Token (Some "whitespace") " " 4;
     Token (Some "number") "7" 5] = "12 @ 7".
Proof.
  apply (proj1 (tokens_cover_input LexExample.E "12 @ 7"
                  [Token (Some "number") "12" 0;
                   Token (Some "whitespace") " " 2;
                   Token (Some "unquoted") "@" 3;
                   Token (Some "whitespace") " " 4;
                   Token (Some "number") "7" 5])
           (JsLexer.Lexer (JsLexer.definitions LexExample.lx) true
              csv_unknownhandler)
           LexExample.c).
  - simpl. repeat split; lia.
  - exact span_keeping_csv.
  - reflexivity.
  - reflexivity.
Defined.

(** ** Which tokens come out *)

Section StringLexerForall.
Variables (E : engine) (lx : StringLexer.lexer) (c : StringLexer.compiled E)
  (str : string) (P : token -> Prop).
Hypothesis Hhandler :
  forall u t, StringLexer.unknownhandler lx u = Ok t -> P t.
Hypothesis Hkept :
  forall m,
    StringLexer.match_name E c m <> Some "whitespace" \/
    StringLexer.keepws lx = true ->
    P (Token (StringLexer.match_name E c m) (m0 m) (index m)).

Lemma s_step_forall toks lm m toks' lm' :
  Forall P toks ->
  StringLexer.step E lx c str (toks, lm) m = Ok (toks', lm') ->
  Forall P toks'.
Proof.
  intros HP. unfold StringLexer.step, StringLexer.gap, StringLexer.emit.
  assert (Hg : forall g,
             (if bool_decide (lm < index m)
              then try t <- StringLexer.unknownhandler lx
                              (unknown_token (slice str lm (index m)) lm);
                   Ok (toks ++ [t])
              else Ok toks) = Ok g -> Forall P g).
  { intros g. case_bool_decide.
    - destruct (StringLexer.unknownhandler lx _) as [t|e] eqn:Ht; simpl;
        [|discriminate].
      intros [= <-]. apply Forall_app. split; [exact HP|].
      apply Forall_singleton. exact (Hhandler _ _ Ht).
    - intros [= <-]. exact HP. }
  destruct (if bool_decide (lm < index m) then _ else _) as [g|e]; simpl;
    [|discriminate].
  specialize (Hg g eq_refl).
  destruct (negb _ || _) eqn:Hk; simpl; intros [= <- _]; [|exact Hg].
  apply Forall_app. split; [exact Hg|]. apply Forall_singleton, Hkept.
  apply orb_true_iff in Hk as [Hk|Hk]; [left|right; exact Hk].
  apply negb_true_iff, bool_decide_eq_false in Hk. exact Hk.
Qed.

Lemma s_tokenizer_forall out :
  StringLexer.tokenizer E lx c str = Ok out -> Forall P out.
Proof.
  unfold StringLexer.tokenizer.
  assert (Hscan : forall ms toks lm toks' lm',
             Forall P toks ->
             StringLexer.scan E lx c str ms (toks, lm) = Ok (toks', lm') ->
             Forall P toks').
  { induction ms as [|m ms IH]; intros toks lm toks' lm' HP.
    - simpl. intros [= <- _]. exact HP.
    - change (StringLexer.scan E lx c str (m :: ms) (toks, lm))
        with (try acc' <- StringLexer.step E lx c str (toks, lm) m;
              StringLexer.scan E lx c str ms acc').
      destruct (StringLexer.step E lx c str (toks, lm) m) as [[t1 l1]|e] eqn:Hs;
        simpl; [|discriminate].
      apply IH. exact (s_step_forall _ _ _ _ _ HP Hs). }
  destruct (StringLexer.scan E lx c str _ ([], 0)) as [[toks lm]|e] eqn:Hs;
    simpl; [|discriminate].
  pose proof (Hscan _ _ _ _ _ (Forall_nil_2 P) Hs) as HP.
  case_bool_decide.
  - destruct (StringLexer.unknownhandler lx _) as [t|e] eqn:Ht; simpl;
      [|discriminate].
    intros [= <-]. apply Forall_app. split; [exact HP|].
    apply Forall_singleton. exact (Hhandler _ _ Ht).
  - intros [= <-]. exact HP.
Qed.

End StringLexerForall.

(** X16: with [keepws] false, no token named "whitespace" is in the output
    of a tokenizer, unless the unknown-span handler itself returns one. *)
Theorem whitespace_dropped (E : engine) (str : string) (out : list token) :
  (forall (lx : JsLexer.lexer) (c : JsLexer.compiled E),
     JsLexer.keepws lx = false ->
     (forall u t, JsLexer.unknownhandler lx u = Ok t ->
                  name t <> Some "whitespace") ->
     JsLexer.tokenizer E lx c str = Ok out ->
     none_named "whitespace" out) /\
  (forall (lx : StringLexer.lexer) (c : StringLexer.compiled E),
     StringLexer.keepws lx = false ->
     (forall u t, StringLexer.unknownhandler lx u = Ok t ->
                  name t <> Some "whitespace") ->
     StringLexer.tokenizer E lx c str = Ok out ->
     none_named "whitespace" out).
Proof.
  assert (H : forall (lx : StringLexer.lexer) (c : StringLexer.compiled E),
             StringLexer.keepws lx = false ->
             (forall u t, StringLexer.unknownhandler lx u = Ok t ->
                          name t <> Some "whitespace") ->
             StringLexer.tokenizer E lx c str = Ok out ->
             none_named "whitespace" out).
  { intros lx c Hkw Hh Hout t Hin.
    pose proof (s_tokenizer_forall E lx c str
                  (fun t => name t <> Some "whitespace") Hh) as HF.
    assert (HF' : Forall (fun t => name t <> Some "whitespace") out).
    { apply HF; [|exact Hout]. intros m [Hm|Hm]; [exact Hm|].
      rewrite Hkw in Hm. discriminate. }
    rewrite Forall_forall in HF'. exact (HF' t Hin). }
  split; [|exact H].
  intros lx c Hkw Hh Hout. apply js_as_stringlexer in Hout.
  exact (H (StringLexer.Lexer [] (JsLexer.keepws lx) (JsLexer.unknownhandler lx))
           _ Hkw Hh Hout).
Qed.

Lemma whitespace_dropped_witness :
  none_named "whitespace"
    [Token (Some "number") "12" 0; Token (Some "plus") "+" 3;
     Token (Some "number") "7" 5].
Proof.
  apply (proj1 (whitespace_dropped LexExample.E "12 + 7"
                  [Token (Some "number") "12" 0; Token (Some "plus") "+" 3;
                   Token (Some "number") "7" 5])
           LexExample.lx LexExample.c).
  - reflexivity.
  - intros u t H. discriminate H.
  - reflexivity.
Defined.

Lemma nonempty_length s : String.length s <> 0 -> s <> "".
Proof. intros H ->. apply H. reflexivity. Qed.

Section JsLexerNonEmpty.
Variables (E : engine) (lx : JsLexer.lexer) (c : JsLexer.compiled E)
  (str : string).
Hypothesis Hhandler :
  forall u t, text u <> "" -> JsLexer.unknownhandler lx u = Ok t ->
              text t <> "".

Lemma j_span_nonempty a b toks t :
  a < b -> b <= String.length str ->
  Forall (fun t => text t <> "") toks ->
  JsLexer.unknownhandler lx (unknown_token (slice str a b) a) = Ok t ->
  Forall (fun t => text t <> "") (toks ++ [t]).
Proof.
  intros Hab Hb HP Ht. apply Forall_app. split; [exact HP|].
  apply Forall_singleton.
  refine (Hhandler _ _ _ Ht). simpl.
  apply nonempty_length. rewrite length_slice by lia. lia.
Qed.

Lemma j_scan_nonempty ms toks lm toks' lm' :
  in_order str lm ms -> lm <= String.length str ->
  Forall (fun t => text t <> "") toks ->
  JsLexer.scan E lx c str ms (toks, lm) = Ok (toks', lm') ->
  Forall (fun t => text t <> "") toks' /\ lm' <= String.length str.
Proof.
  revert toks lm. induction ms as [|m ms IH]; intros toks lm Hin Hlm HP.
  - simpl. intros [= <- <-]. auto.
  - destruct Hin as (Hfrom & Hend & Htext & Hrest). simpl.
    assert (Hg : forall g, JsLexer.gap lx str toks lm (index m) = Ok g ->
                           Forall (fun t => text t <> "") g).
    { intros g. unfold JsLexer.gap. case_bool_decide.
      - destruct (JsLexer.unknownhandler lx _) as [t|e] eqn:Ht; simpl;
          [|discriminate].
        intros [= <-]. apply (j_span_nonempty lm (index m)); auto; lia.
      - intros [= <-]. exact HP. }
    destruct (JsLexer.gap lx str toks lm (index m)) as [g|e]; simpl;
      [|discriminate].
    specialize (Hg g eq_refl).
    assert (He : forall t2, JsLexer.emit E lx c g m = Ok t2 ->
                            Forall (fun t => text t <> "") t2).
    { intros t2. unfold JsLexer.emit. destruct (negb _ || _).
      - case_bool_decide as Hz; [discriminate|]. intros [= <-].
        apply Forall_app. split; [exact Hg|]. apply Forall_singleton. simpl.
        apply nonempty_length, Hz.
      - intros [= <-]. exact Hg. }
    destruct (JsLexer.emit E lx c g m) as [t2|e]; simpl; [|discriminate].
    apply IH; auto.
Qed.

Lemma j_tokenizer_nonempty out :
  in_order str 0 (matchAll E (JsLexer.re E c) str) ->
  JsLexer.tokenizer E lx c str = Ok out ->
  Forall (fun t => text t <> "") out.
Proof.
  intros Hin. unfold JsLexer.tokenizer.
  destruct (JsLexer.scan E lx c str _ ([], 0)) as [[toks lm]|e] eqn:Hs;
    simpl; [|discriminate].
  destruct (j_scan_nonempty _ _ _ _ _ Hin ltac:(lia) (Forall_nil_2 _) Hs)
    as [HP Hle].
  case_bool_decide.
  - destruct (JsLexer.unknownhandler lx _) as [t|e] eqn:Ht; simpl;
      [|discriminate].
    intros [= <-]. unfold slice_end in Ht.
    apply (j_span_nonempty lm (String.length str)); auto.
  - intros [= <-]. exact HP.
Qed.

End JsLexerNonEmpty.

(** X17: every token that the tokenizer of jsparser.js returns has a
    non-empty text, when the unknown-span handler does not empty the spans
    it is given (so every token the parser consumes stands for at least one
    character of the input).  The matches are those of [matchAll]. *)
Theorem tokens_nonempty (E : engine) (lx : JsLexer.lexer)
    (c : JsLexer.compiled E) (str : string) (out : list token) :
  in_order str 0 (matchAll E (JsLexer.re E c) str) ->
  (forall u t, text u <> "" -> JsLexer.unknownhandler lx u = Ok t ->
               text t <> "") ->
  JsLexer.tokenizer E lx c str = Ok out ->
  forall t, t ∈ out -> text t <> "".
Proof.
  intros Hin Hh Hout.
  pose proof (j_tokenizer_nonempty E lx c str Hh out Hin Hout) as HF.
  rewrite Forall_forall in HF. exact HF.
Qed.

Lemma tokens_nonempty_witness :
  Forall (fun t => text t <> "")
    [Token (Some "number") "12" 0; Token (Some "plus") "+" 3;
     Token (Some "number") "7" 5].
Proof.
  apply Forall_forall.
  apply (tokens_nonempty LexExample.E LexExample.lx LexExample.c "12 + 7").
  - simpl. repeat split; lia.
  - intros u t _ H. discriminate H.
  - reflexivity.
Defined.

(** ** Token definitions *)



Lemma assign_names k v l :
  (StringLexer.assign k v l).*1 =
    if decide (k ∈ l.*1) then l.*1 else l.*1 ++ [k].
Proof.
  induction l as [|[k' v'] l IH].
  - destruct (decide (k ∈ ([] : list (string * string)).*1)) as [H|_];
      [|reflexivity].
    apply elem_of_nil in H as [].
  - change (StringLexer.assign k v ((k', v') :: l))
      with (if String.eqb k' k then (k, v) :: l
            else (k', v') :: StringLexer.assign k v l).
    destruct (String.eqb k' k) eqn:Hk.
    + apply String.eqb_eq in Hk. subst k'.
      destruct (decide (k ∈ ((k, v') :: l).*1)) as [_|H]; [reflexivity|].
      exfalso. apply H. apply list_elem_of_here.
    + apply String.eqb_neq in Hk.
      change (k' :: (StringLexer.assign k v l).*1 =
              if decide (k ∈ k' :: l.*1) then k' :: l.*1
              else k' :: l.*1 ++ [k]).
      rewrite IH.
      destruct (decide (k ∈ l.*1)) as [Hin|Hnin];
        destruct (decide (k ∈ k' :: l.*1)) as [Hin'|Hnin']; try reflexivity.
      * exfalso. apply Hnin'. apply list_elem_of_further, Hin.
      * exfalso. apply elem_of_cons in Hin' as [Heq|Hin']; congruence.
Qed.

Lemma assign_NoDup k v l :
  NoDup l.*1 -> NoDup (StringLexer.assign k v l).*1.
Proof.
  intros Hnd. rewrite assign_names. destruct (decide (k ∈ l.*1)); [exact Hnd|].
  apply NoDup_app. split; [exact Hnd|]. split.
  - intros x Hx Hk. apply list_elem_of_singleton in Hk. congruence.
  - apply NoDup_singleton.
Qed.

Lemma define_tokens nm v lx :
  StringLexer.tokens (StringLexer.define nm v lx) =
    StringLexer.assign nm (stored_source nm v) (StringLexer.tokens lx).
Proof. destruct v; reflexivity. Qed.



Lemma defines_NoDup lx ds :
  NoDup (StringLexer.tokens lx).*1 ->
  NoDup (StringLexer.tokens (defines lx ds)).*1.
Proof.
  revert lx. induction ds as [|[nm v] ds IH]; intros lx Hnd; simpl; [exact Hnd|].
  apply IH. rewrite define_tokens. apply assign_NoDup, Hnd.
Qed.

(** X19: a Lexer of stringlexer.js never has two patterns for one name:
    after the constructor and any series of [define] calls, the token names
    that [compile] hands to the tokenizer are pairwise distinct, and there
    is one capture group per name. *)
Theorem stringlexer_names_distinct (E : engine) (ws : option string)
    (ds : list (string * StringLexer.defvalue)) (c : StringLexer.compiled E) :
  StringLexer.compile E (defines (StringLexer.new ws) ds) = Ok c ->
  NoDup (StringLexer.tokennames E c) /\
  length (StringLexer.src E c) = length (StringLexer.tokennames E c).
Proof.
  unfold StringLexer.compile.
  destruct (new_RegExp E _); [|discriminate]. intros [= <-]. simpl.
  split.
  - apply defines_NoDup. destruct ws; simpl.
    + apply NoDup_singleton.
    + apply NoDup_nil_2.
  - rewrite !length_fmap. reflexivity.
Qed.

Lemma stringlexer_names_distinct_witness :
  NoDup ["whitespace"; "num"].
Proof.
  apply (proj1 (stringlexer_names_distinct LexExample.E_star
                  (Some "[ \r\n]+")
                  [("num", StringLexer.DVRegExp "[0-9]+");
                   ("num", StringLexer.DVRegExp "[0-9]*")]
                  (StringLexer.Compiled LexExample.E_star
                     ["([ \r\n]+)"; "([0-9]*)"] ["whitespace"; "num"]
                     "([ \r\n]+)|([0-9]*)")
                  eq_refl)).
Defined.

Lemma findIndex_from_range {A} (f : A -> bool) k l :
  findIndex_from f k l = (-1)%Z \/
  exists i x,
    findIndex_from f k l = Z.of_nat (k + i) /\ l !! i = Some x /\
    f x = true /\ forall j y, j < i -> l !! j = Some y -> f y = false.
Proof.
  revert k. induction l as [|x l IH]; intros k; simpl; [left; reflexivity|].
  destruct (f x) eqn:Hx.
  - right. exists 0, x. rewrite Nat.add_0_r. repeat split; auto.
    intros j y Hj. lia.
  - destruct (IH (S k)) as [-> | (i & y & -> & Hl & Hy & Hmin)];
      [left; reflexivity|].
    right. exists (S i), y. split; [f_equal; lia|]. split; [exact Hl|].
    split; [exact Hy|]. intros [|j] z Hj; simpl.
    + intros [= <-]. exact Hx.
    + apply Hmin. lia.
Qed.

Lemma findIndex_from_app {A} (f : A -> bool) k l l' :
  findIndex_from f k l <> (-1)%Z ->
  findIndex_from f k (l ++ l') = findIndex_from f k l.
Proof.
  revert k. induction l as [|x l IH]; intros k; simpl; [congruence|].
  destruct (f x); [reflexivity | apply IH].
Qed.

(** X20: [define(d)] of jsparser.js always adds the definition at the end,
    also for a name that is already defined ("whitespace" included: the
    branch that was to redefine it is never taken): the definitions made
    before keep their places, and [findtoken] still finds the older
    definition of a name. *)
Theorem define_appends (d : JsLexer.definition) (lx lx' : JsLexer.lexer) :
  JsLexer.define d None lx = Ok lx' ->
  exists d',
    JsLexer.makedef d = Ok d' /\
    JsLexer.definitions lx' = JsLexer.definitions lx ++ [d'] /\
    JsLexer.keepws lx' = JsLexer.keepws lx /\
    (forall nm, JsLexer.findtoken nm lx <> (-1)%Z ->
                JsLexer.findtoken nm lx' = JsLexer.findtoken nm lx).
Proof.
  unfold JsLexer.define.
  destruct (JsLexer.makedef d) as [d'|e]; simpl; [|discriminate].
  intros [= <-]. exists d'. simpl. repeat split.
  intros nm Hfound. unfold JsLexer.findtoken, findIndex. simpl.
  apply findIndex_from_app. exact Hfound.
Qed.

Lemma define_appends_witness :
  exists d',
    JsLexer.makedef (JsLexer.DObject "whitespace" (JsLexer.PRegExp "[ \t]+")) =
      Ok d' /\
    JsLexer.definitions
      (JsLexer.Lexer
         (JsLexer.definitions LexExample.lx ++ [("whitespace", JsLexer.PString "[ \t]+")])
         false JsLexer.default_unknownhandler) =
      JsLexer.definitions LexExample.lx ++ [d'] /\
    JsLexer.keepws
      (JsLexer.Lexer
         (JsLexer.definitions LexExample.lx ++ [("whitespace", JsLexer.PString "[ \t]+")])
         false JsLexer.default_unknownhandler) = JsLexer.keepws LexExample.lx /\
    (forall nm, JsLexer.findtoken nm LexExample.lx <> (-1)%Z ->
                JsLexer.findtoken nm
                  (JsLexer.Lexer
                     (JsLexer.definitions LexExample.lx
                      ++ [("whitespace", JsLexer.PString "[ \t]+")])
                     false JsLexer.default_unknownhandler) =
                  JsLexer.findtoken nm LexExample.lx).
Proof.
  apply (define_appends
           (JsLexer.DObject "whitespace" (JsLexer.PRegExp "[ \t]+"))
           LexExample.lx).
  reflexivity.
Defined.

(** X21: [define(d, before)] with a name [before] puts the definition
    right in front of the first definition of that name: it takes its
    index, that definition and all later ones move up by one, the earlier
    ones stay; when no definition has the name, it throws
    'cant find the token' and when [before] is the empty string the
    definition goes to the end. *)
Theorem define_before (d : JsLexer.definition) (b : string)
    (lx : JsLexer.lexer) (d' : string * JsLexer.patval) :
  JsLexer.makedef d = Ok d' ->
  (b = "" ->
   JsLexer.define d (Some b) lx = JsLexer.define d None lx) /\
  (b <> "" -> JsLexer.findtoken b lx = (-1)%Z ->
   JsLexer.define d (Some b) lx = Err (ThrowString "cant find the token")) /\
  (b <> "" -> JsLexer.findtoken b lx <> (-1)%Z ->
   exists lx' i old,
     JsLexer.define d (Some b) lx = Ok lx' /\
     JsLexer.findtoken b lx = Z.of_nat i /\
     JsLexer.definitions lx !! i = Some old /\ old.1 = b /\
     JsLexer.definitions lx' !! i = Some d' /\
     JsLexer.definitions lx' !! S i = Some old /\
     length (JsLexer.definitions lx') = S (length (JsLexer.definitions lx)) /\
     (forall j, j < i ->
        JsLexer.definitions lx' !! j = JsLexer.definitions lx !! j) /\
     (forall j, i <= j ->
        JsLexer.definitions lx' !! S j = JsLexer.definitions lx !! j)).
Proof.
  intros Hd. unfold JsLexer.define. rewrite Hd. simpl.
  split; [intros ->; reflexivity|].
  destruct b as [|ch b]; [split; intros H; congruence|].
  split.
  - intros _ ->. reflexivity.
  - intros _ Hfound.
    destruct (findIndex_from_range
                (fun d0 : string * JsLexer.patval => String.eqb d0.1 (String ch b))
                0 (JsLexer.definitions lx))
      as [Hnone | (i & old & Hi & Hl & Hold & _)];
      [exfalso; exact (Hfound Hnone)|].
    unfold JsLexer.findtoken, findIndex in *. simpl in Hi.
    rewrite Hi. destruct (Z.of_nat i =? -1)%Z eqn:Hz; [lia|].
    rewrite Nat2Z.id.
    pose proof (lookup_lt_Some _ _ _ Hl) as Hlt.
    eexists _, i, old. split; [reflexivity|]. simpl.
    split; [reflexivity|]. split; [exact Hl|].
    split; [apply String.eqb_eq, Hold|].
    assert (Htake : length (take i (JsLexer.definitions lx)) = i)
      by (rewrite length_take; lia).
    split; [|split; [|split; [|split]]].
    + rewrite lookup_app_r by lia. rewrite Htake, Nat.sub_diag. reflexivity.
    + rewrite lookup_app_r by lia. rewrite Htake.
      replace (S i - i) with 1 by lia. simpl.
      rewrite lookup_drop, Nat.add_0_r. exact Hl.
    + rewrite length_app. simpl. rewrite length_drop, Htake. lia.
    + intros j Hj. rewrite lookup_app_l by lia. apply lookup_take_lt. lia.
    + intros j Hj. rewrite lookup_app_r by lia. rewrite Htake.
      replace (S j - i) with (S (j - i)) by lia. simpl.
      rewrite lookup_drop. f_equal. lia.
Qed.

Lemma define_before_witness :
  JsLexer.define (JsLexer.DLiteral "x") (Some "nothing") LexExample.lx =
    Err (ThrowString "cant find the token").
Proof.
  apply (proj1 (proj2 (define_before (JsLexer.DLiteral "x") "nothing"
                         LexExample.lx ("x", JsLexer.PString "x") eq_refl))).
  - discriminate.
  - reflexivity.
Defined.

Lemma makedefs_ok ds :
  (exists defs, JsLexer.makedefs ds = Ok defs) \/
  (JsLexer.makedefs ds = Err (TypeError "constructor") /\ Exists nullish ds).
Proof.
  induction ds as [|d ds IH]; simpl; [left; eauto|].
  destruct d as [s|k v]; simpl.
  - destruct IH as [[defs ->] | [-> Hex]]; simpl; [left; eauto|].
    right. split; [reflexivity | apply Exists_cons_tl, Hex].
  - destruct v as [s|source|b| |]; simpl;
      try (destruct IH as [[defs ->] | [-> Hex]]; simpl; [left; eauto|];
           right; split; [reflexivity | apply Exists_cons_tl, Hex]);
      right; (split; [reflexivity|]); apply Exists_cons_hd; exists k; auto.
Qed.

Lemma makedefs_not_nullish ds defs :
  JsLexer.makedefs ds = Ok defs -> Forall (fun d => ~ nullish d) ds.
Proof.
  revert defs. induction ds as [|d ds IH]; intros defs; simpl;
    [intros _; apply Forall_nil_2|].
  destruct (JsLexer.makedef d) as [x|e] eqn:Hd; simpl; [|discriminate].
  destruct (JsLexer.makedefs ds) as [xs|e]; simpl; [|discriminate].
  intros _. apply Forall_cons. split; [|apply (IH xs eq_refl)].
  intros (k & [-> | ->]); discriminate Hd.
Qed.

(** X22: the constructor of the variadic Lexer fails only for a definition
    whose value is [null] or [undefined], with a TypeError; otherwise it
    returns a Lexer that has a definition named "whitespace" (the caller's
    or the default one), that drops whitespace and that throws unknown
    spans. *)
Theorem lexer_new_result (ds : list JsLexer.definition) :
  (Forall (fun d => ~ nullish d) ds ->
   exists lx,
     JsLexer.new ds = Ok lx /\
     JsLexer.findtoken "whitespace" lx <> (-1)%Z /\
     JsLexer.keepws lx = false /\
     JsLexer.unknownhandler lx = JsLexer.default_unknownhandler) /\
  (Exists nullish ds -> JsLexer.new ds = Err (TypeError "constructor")).
Proof.
  split.
  - intros Hok. unfold JsLexer.new.
    destruct (makedefs_ok ds) as [[defs Hdefs] | [_ Hex]].
    + rewrite Hdefs. simpl.
      destruct (_ =? _)%Z eqn:Hf.
      * unfold JsLexer.define. simpl. eexists. split; [reflexivity|]. simpl.
        split; [|auto]. unfold JsLexer.findtoken, findIndex. simpl.
        pose proof (findIndex_from_found
                      (fun d : string * JsLexer.patval => String.eqb d.1 "whitespace")
                      0 (defs ++ [("whitespace", JsLexer.PString "[ \r\n]+")])
                      ("whitespace", JsLexer.PString "[ \r\n]+")) as Hfound.
        specialize (Hfound ltac:(apply elem_of_app; right; apply list_elem_of_here)
                             eq_refl).
        lia.
      * eexists. split; [reflexivity|]. split; [lia|]. auto.
    + exfalso. apply Exists_exists in Hex as (d & Hin & Hnull).
      rewrite Forall_forall in Hok. exact (Hok d Hin Hnull).
  - intros Hex. unfold JsLexer.new.
    destruct (makedefs_ok ds) as [[defs Hdefs] | [-> _]]; [|reflexivity].
    exfalso. apply makedefs_not_nullish in Hdefs.
    apply Exists_exists in Hex as (d & Hin & Hnull).
    rewrite Forall_forall in Hdefs. exact (Hdefs d Hin Hnull).
Qed.

Lemma lexer_new_result_witness :
  JsLexer.new [JsLexer.DLiteral "+"; JsLexer.DObject "ws" JsLexer.PUndefined] =
    Err (TypeError "constructor").
Proof.
  apply (proj2 (lexer_new_result
                  [JsLexer.DLiteral "+"; JsLexer.DObject "ws" JsLexer.PUndefined])).
  apply Exists_cons_tl, Exists_cons_hd. exists "ws". right. reflexivity.
Defined.

(** X23: the two [escaped] functions give the same regular-expression
    source for a string exactly when the string has no [/]: jsparser.js
    escapes the slash, stringlexer.js leaves it as it is. *)
Theorem escaped_agree (s : string) :
  StringLexer.escaped s = JsLexer.escaped s <-> ~ occurs "/"%char s.
Proof.
  unfold StringLexer.escaped, JsLexer.escaped.
  induction s as [|c s IH]; simpl; [tauto|].
  unfold class_jsparser at 1.
  destruct (bool_decide (Ascii.nat_of_ascii c = 47)) eqn:Hc.
  - apply bool_decide_eq_true in Hc.
    assert (c = "/"%char) as ->
      by (rewrite <- (Ascii.ascii_nat_embedding c), Hc; reflexivity).
    simpl. split; [discriminate | intros H; exfalso; apply H; left; reflexivity].
  - apply bool_decide_eq_false in Hc. rewrite orb_false_r.
    assert (c <> "/"%char) as Hne by (intros ->; apply Hc; reflexivity).
    destruct (class_stringlexer c).
    + split.
      * intros [= H] [Hc' | Ho]; [exact (Hne Hc') | exact (proj1 IH H Ho)].
      * intros H. do 2 f_equal. apply IH. intros Ho. apply H. right. exact Ho.
    + split.
      * intros [= H] [Hc' | Ho]; [exact (Hne Hc') | exact (proj1 IH H Ho)].
      * intros H. f_equal. apply IH. intros Ho. apply H. right. exact Ho.
Qed.
